(** * EncryptedMapGame: a shallow embedding of the position ledger

  The ledger contract [EncryptedMapGame] stores, per address, two encrypted
  coordinates and an [active] flag.  Every value it manipulates is a
  ciphertext handle; the arithmetic is carried out by the FHE coprocessor.
  The development below embeds the contract function by function, over a
  plaintext model of the coprocessor, and then the decryption flow of the
  web client ([handleDecrypt] in [GridGameApp.tsx]). *)

From Stdlib Require Import ZArith Lia Ascii.
From stdpp Require Import base gmap list strings pretty.

Local Open Scope Z_scope.

(** An account or contract address (160 bits on chain; only equality is used). *)
Definition address := N.

(** A ciphertext handle.  [0] is the uninitialised handle ([bytes32(0)]). *)
Definition handle := nat.

(** ** The coprocessor *)

Module FHE.

(** Modelled from the spec: the encrypted-integer primitive
    ([@fhevm/solidity/lib/FHE.sol]) is an external dependency and not part
    of the sources.  It is modelled by its plaintext semantics: a handle
    names a cell holding a type tag and the plaintext the ciphertext
    decrypts to, every operation allocates a fresh cell for its result,
    and an access-control list records who may ask for a decryption. *)
Inductive FheType := Bool | Uint8 | Uint32.

Definition bits (t : FheType) : Z :=
  match t with Bool => 1 | Uint8 => 8 | Uint32 => 32 end.

(** Wrap-around of a [bits t]-wide unsigned integer. *)
Definition wrap (t : FheType) (v : Z) : Z := v mod 2 ^ bits t.

Record Ciphertext := { ct_type : FheType; ct_plain : Z }.

(** The operations the coprocessor has been asked to perform, in order. *)
Inductive OpKind :=
| KRand | KCast | KTrivialEncrypt | KRem | KAdd | KLt | KGt | KSelect | KVerifyInput.

Record Coprocessor := {
  cts : list Ciphertext;
  acl : gset (handle * address);
  oplog : list OpKind
}.

Definition empty : Coprocessor := {| cts := []; acl := ∅; oplog := [] |}.

Definition cell (c : Coprocessor) (h : handle) : option Ciphertext :=
  match h with O => None | S i => cts c !! i end.

(** What the holder of a decryption right learns. *)
Definition decrypt (c : Coprocessor) (h : handle) : option Z :=
  ct_plain <$> cell c h.

(** Operand value; the library reads an uninitialised operand as an
    encryption of zero. *)
Definition plain (c : Coprocessor) (h : handle) : Z :=
  default 0 (decrypt c h).

Definition emit (k : OpKind) (t : FheType) (v : Z) (c : Coprocessor)
  : handle * Coprocessor :=
  (S (length (cts c)),
   {| cts := cts c ++ [{| ct_type := t; ct_plain := wrap t v |}];
      acl := acl c;
      oplog := oplog c ++ [k] |}).

(** [FHE.randEuint8()]; [r] is the value the coprocessor's generator draws. *)
Definition randEuint8 (r : Z) : Coprocessor → handle * Coprocessor :=
  emit KRand Uint8 r.

(** [FHE.asEuint32(euint8)]: widening cast. *)
Definition asEuint32 (a : handle) (c : Coprocessor) : handle * Coprocessor :=
  emit KCast Uint32 (plain c a) c.

(** [FHE.asEuint8(euint32)]: narrowing cast, keeps the low 8 bits. *)
Definition asEuint8 (a : handle) (c : Coprocessor) : handle * Coprocessor :=
  emit KCast Uint8 (plain c a) c.

(** [FHE.asEuint32(uint32)] and [FHE.asEuint8(uint8)]: trivial encryption
    of a public constant. *)
Definition asEuint32_const (v : Z) : Coprocessor → handle * Coprocessor :=
  emit KTrivialEncrypt Uint32 v.

Definition asEuint8_const (v : Z) : Coprocessor → handle * Coprocessor :=
  emit KTrivialEncrypt Uint8 v.

(** [FHE.rem(euint32, uint32)]: remainder by a public scalar. *)
Definition rem (a : handle) (b : Z) (c : Coprocessor) : handle * Coprocessor :=
  emit KRem Uint32 (plain c a mod b) c.

(** [FHE.add(euint32, euint32)]. *)
Definition add (a b : handle) (c : Coprocessor) : handle * Coprocessor :=
  emit KAdd Uint32 (plain c a + plain c b) c.

(** [FHE.lt] and [FHE.gt] on [euint8]: an encrypted boolean. *)
Definition lt (a b : handle) (c : Coprocessor) : handle * Coprocessor :=
  emit KLt Bool (if plain c a <? plain c b then 1 else 0) c.

Definition gt (a b : handle) (c : Coprocessor) : handle * Coprocessor :=
  emit KGt Bool (if plain c a >? plain c b then 1 else 0) c.

(** [FHE.select(ebool, euint8, euint8)]: homomorphic multiplexer. *)
Definition select (b a1 a2 : handle) (c : Coprocessor) : handle * Coprocessor :=
  emit KSelect Uint8 (if plain c b =? 0 then plain c a2 else plain c a1) c.

(** Modelled from the spec: the packed input a client builds with
    [createEncryptedInput(contract, user).add8(..).add8(..).encrypt()].
    The proof binds the values to one ledger instance and one identity; an
    external handle names a position in the pack. *)
Record InputProof := {
  ip_contract : address;
  ip_user : address;
  ip_values : list Z
}.

Definition externalEuint8 := nat.

(** Modelled from the spec: [FHE.fromExternal(externalEuint8, inputProof)]
    imports the input when the proof is bound to this contract and this
    sender and covers the handle; otherwise the call fails. *)
Definition fromExternal (this sender : address) (e : externalEuint8)
    (p : InputProof) (c : Coprocessor) : option (handle * Coprocessor) :=
  if bool_decide (ip_contract p = this) && bool_decide (ip_user p = sender) then
    match ip_values p !! e with
    | Some v => Some (emit KVerifyInput Uint8 v c)
    | None => None
    end
  else None.

(** [FHE.allow(handle, account)]. *)
Definition allow (h : handle) (a : address) (c : Coprocessor) : Coprocessor :=
  {| cts := cts c; acl := {[ (h, a) ]} ∪ acl c; oplog := oplog c |}.

End FHE.

(** ** The contract *)

Module EncryptedMapGame.

Import FHE.

Definition MIN_COORDINATE : Z := 1.
Definition MAX_COORDINATE : Z := 10.

Record PlayerPosition := { x : handle; y : handle; active : bool }.

Inductive Event := PlayerJoined (player : address) | PlayerMoved (player : address).

(** [InvalidProof] is the coprocessor's failure on a bad input proof. *)
Inductive Error := PlayerAlreadyJoined | PlayerNotRegistered | InvalidProof.

Record Ledger := {
  self : address;
  _players : gmap address PlayerPosition;
  fhe : Coprocessor;
  events : list Event
}.

(** The state right after deployment at address [a]. *)
Definition deployed (a : address) : Ledger :=
  {| self := a; _players := ∅; fhe := FHE.empty; events := [] |}.

(** A mapping slot never written reads as the zero record. *)
Definition zero_position : PlayerPosition := {| x := O; y := O; active := false |}.

Definition player_at (s : Ledger) (a : address) : PlayerPosition :=
  default zero_position (_players s !! a).

(** *** Execution monad: state passing with revert *)

Inductive Result (A : Type) :=
| Ok (a : A) (s : Ledger)
| Revert (e : Error).
Arguments Ok {A} a s.
Arguments Revert {A} e.

Definition M (A : Type) := Ledger → Result A.

Definition ret {A} (a : A) : M A := fun s => Ok a s.

Definition bind {A B} (m : M A) (k : A → M B) : M B :=
  fun s => match m s with Ok a s' => k a s' | Revert e => Revert e end.

Definition revert {A} (e : Error) : M A := fun _ => Revert e.

Notation "'let*' p ':=' m 'in' k" := (bind m (fun p => k))
  (at level 10, p pattern, m at level 100, k at level 200).
Notation "m ';;' k" := (bind m (fun _ => k))
  (at level 100, k at level 200, right associativity).

(** Storage reads and writes through the pointer [_players[a]]. *)
Definition load (a : address) : M PlayerPosition :=
  fun s => Ok (player_at s a) s.

Definition write (a : address) (f : PlayerPosition → PlayerPosition) (s : Ledger)
  : Ledger :=
  {| self := self s;
     _players := <[a := f (player_at s a)]> (_players s);
     fhe := fhe s;
     events := events s |}.

Definition store (a : address) (f : PlayerPosition → PlayerPosition) : M unit :=
  fun s => Ok tt (write a f s).

Definition set_x (v : handle) (p : PlayerPosition) : PlayerPosition :=
  {| x := v; y := y p; active := active p |}.
Definition set_y (v : handle) (p : PlayerPosition) : PlayerPosition :=
  {| x := x p; y := v; active := active p |}.
Definition set_active (v : bool) (p : PlayerPosition) : PlayerPosition :=
  {| x := x p; y := y p; active := v |}.

Definition log (e : Event) (s : Ledger) : Ledger :=
  {| self := self s; _players := _players s; fhe := fhe s;
     events := events s ++ [e] |}.

Definition emit_event (e : Event) : M unit := fun s => Ok tt (log e s).

Definition with_fhe (c : Coprocessor) (s : Ledger) : Ledger :=
  {| self := self s; _players := _players s; fhe := c; events := events s |}.

(** A coprocessor operation that yields a handle. *)
Definition op (f : Coprocessor → handle * Coprocessor) : M handle :=
  fun s => let '(h, c) := f (fhe s) in Ok h (with_fhe c s).

Definition this : M address := fun s => Ok (self s) s.

Definition fromExternal (sender : address) (e : externalEuint8) (p : InputProof)
  : M handle :=
  fun s => match FHE.fromExternal (self s) sender e p (fhe s) with
           | Some (h, c) => Ok h (with_fhe c s)
           | None => Revert InvalidProof
           end.

Definition allow (h : handle) (a : address) : M unit :=
  fun s => Ok tt (with_fhe (FHE.allow h a (fhe s)) s).

Definition allowThis (h : handle) : M unit :=
  let* a := this in allow h a.

(** *** The functions of the contract *)

Definition hasJoined (player : address) : M bool :=
  let* p := load player in ret (active p).

Definition _randomCoordinate (r : Z) : M handle :=
  let* randomValue := op (randEuint8 r) in
  let* randomAs32 := op (asEuint32 randomValue) in
  let* bounded := op (rem randomAs32 MAX_COORDINATE) in
  let* one := op (asEuint32_const MIN_COORDINATE) in
  let* shifted := op (add bounded one) in
  op (asEuint8 shifted).

Definition _randomPosition (rx ry : Z) : M (handle * handle) :=
  let* cx := _randomCoordinate rx in
  let* cy := _randomCoordinate ry in
  ret (cx, cy).

Definition _grantAccess (player owner : address) : M unit :=
  let* p := load player in allowThis (x p) ;;
  let* p := load player in allowThis (y p) ;;
  let* p := load player in allow (x p) owner ;;
  let* p := load player in allow (y p) owner.

Definition _clampCoordinate (coordinate : handle) : M handle :=
  let* minValue := op (asEuint8_const MIN_COORDINATE) in
  let* maxValue := op (asEuint8_const MAX_COORDINATE) in
  let* belowMinimum := op (lt coordinate minValue) in
  let* boundedMin := op (select belowMinimum minValue coordinate) in
  let* aboveMaximum := op (gt boundedMin maxValue) in
  op (select aboveMaximum maxValue boundedMin).

(** [rx], [ry] are the two draws of the coprocessor's generator. *)
Definition joinGame (msg_sender : address) (rx ry : Z) : M unit :=
  let* player := load msg_sender in
  if active player then revert PlayerAlreadyJoined
  else
    let* pos := _randomPosition rx ry in
    store msg_sender (set_x (fst pos)) ;;
    store msg_sender (set_y (snd pos)) ;;
    store msg_sender (set_active true) ;;
    _grantAccess msg_sender msg_sender ;;
    emit_event (PlayerJoined msg_sender).

Definition move (msg_sender : address) (encryptedX encryptedY : externalEuint8)
    (inputProof : InputProof) : M unit :=
  let* player := load msg_sender in
  if negb (active player) then revert PlayerNotRegistered
  else
    let* inX := fromExternal msg_sender encryptedX inputProof in
    let* nextX := _clampCoordinate inX in
    let* inY := fromExternal msg_sender encryptedY inputProof in
    let* nextY := _clampCoordinate inY in
    store msg_sender (set_x nextX) ;;
    store msg_sender (set_y nextY) ;;
    _grantAccess msg_sender msg_sender ;;
    emit_event (PlayerMoved msg_sender).

(** A view: [msg_sender] is the caller, which the body never reads. *)
Definition getPlayerPosition (msg_sender : address) (player : address)
  : M (handle * handle) :=
  let* storedPlayer := load player in
  if negb (active storedPlayer) then revert PlayerNotRegistered
  else ret (x storedPlayer, y storedPlayer).

Definition gridBounds : Z * Z := (MIN_COORDINATE, MAX_COORDINATE).

End EncryptedMapGame.


(** ** The decryption flow of the web client *)

Module GridGameApp.

Local Open Scope string_scope.

(** [CONTRACT_ADDRESS] of [config/contracts.ts]. *)
Definition CONTRACT_ADDRESS : string := "0xA2dF9433a04459f68a5237125245c9f1594b1fEc".

Definition isContractConfigured : bool :=
  negb (String.eqb CONTRACT_ADDRESS "0x0000000000000000000000000000000000000000").

(** [s.startsWith(p)]. *)
Fixpoint starts_with (p s : string) : bool :=
  match p, s with
  | EmptyString, _ => true
  | String a p', String b s' => Ascii.eqb a b && starts_with p' s'
  | String _ _, EmptyString => false
  end.

Fixpoint drop (n : nat) (s : string) : string :=
  match n, s with
  | O, _ => s
  | S n', String _ s' => drop n' s'
  | S _, EmptyString => EmptyString
  end.

(** [s.replace(pat, rep)] with a string pattern: the first occurrence of
    [pat] in [s], wherever it stands, is replaced. *)
Fixpoint replace (pat rep s : string) : string :=
  if starts_with pat s then rep +:+ drop (String.length pat) s
  else match s with
       | EmptyString => EmptyString
       | String a s' => String a (replace pat rep s')
       end.

Record Keypair := { publicKey : string; privateKey : string }.

Record HandleContractPair := { handle : string; contractAddress : string }.

(** The arguments of [instance.userDecrypt], in order. *)
Record UserDecryptRequest := {
  req_handleContractPairs : list HandleContractPair;
  req_privateKey : string;
  req_publicKey : string;
  req_signature : string;
  req_contractAddresses : list string;
  req_userAddress : string;
  req_startTimeStamp : string;
  req_durationDays : string
}.

Section Flow.

(** The three parts of the typed data the SDK hands back; the client passes
    them on to the signer untouched. *)
Variables Domain Types Message : Type.

Record EIP712 := {
  domain : Domain;
  types_UserDecryptRequestVerification : Types;
  message : Message
}.

(** What a call may throw: an [Error] object with its message, or any other
    value. *)
Inductive Thrown := ErrorObject (msg : string) | OtherValue.

(** The relayer SDK instance: each method answers with its result or with
    what it throws.  [generateKeypair] is the answer of this run's call. *)
Record ZamaInstance := {
  generateKeypair : Thrown + Keypair;
  createEIP712 : string → list string → string → string → Thrown + EIP712;
  userDecrypt : UserDecryptRequest → Thrown + list (string * Z)
}.

(** The wallet signer. *)
Record Signer := {
  signTypedData : Domain → Types → Message → Thrown + string
}.

(** What the component holds when the handler runs.  [signerPromise] is
    [Some r] when the promise exists, [r] being what awaiting it gives (a
    signer, nothing, or a rejection); [now] is [Date.now()], in
    milliseconds. *)
Record Component := {
  instance : option ZamaInstance;
  address : option string;
  contractHandles_x : option string;
  contractHandles_y : option string;
  signerPromise : option (Thrown + option Signer);
  now : Z
}.

(** The calls the handler makes on its collaborators, in order. *)
Inductive Call :=
| CallGenerateKeypair
| CallCreateEIP712 (publicKey : string) (contractAddresses : list string)
    (startTimeStamp durationDays : string)
| CallSignTypedData (d : Domain) (t : Types) (m : Message)
| CallUserDecrypt (r : UserDecryptRequest).

(** What the handler leaves in the component: [setTxError] or
    [setDecryptedPosition]; a coordinate missing from the relayer's answer
    is not a number. *)
Inductive Outcome :=
| TxError (msg : string)
| DecryptedPosition (x y : option Z).

(** The body of a [try]: the calls made so far, and a value or what was
    thrown. *)
Definition Try (A : Type) : Type := list Call * (Thrown + A).

Definition pure {A} (a : A) : Try A := ([], inr a).

Definition throw {A} (e : Thrown) : Try A := ([], inl e).

Definition and_then {A B} (m : Try A) (k : A → Try B) : Try B :=
  match m with
  | (t, inl e) => (t, inl e)
  | (t, inr a) => let '(t', r) := k a in ((t ++ t')%list, r)
  end.

(** The external call [c], answered by [r]. *)
Definition call {A} (c : Call) (r : Thrown + A) : Try A := ([c], r).

Notation "'let*' p ':=' m 'in' k" := (and_then m (fun p => k))
  (at level 10, p pattern, m at level 100, k at level 200).

(** A string is truthy when it is defined and not empty. *)
Definition truthy (o : option string) : option string :=
  match o with
  | Some EmptyString => None
  | _ => o
  end.

Definition lookup_plain (k : string) (m : list (string * Z)) : option Z :=
  snd <$> List.find (fun e => String.eqb (fst e) k) m.

Definition handleDecrypt (st : Component) : list Call * Outcome :=
  match instance st, truthy (address st), truthy (contractHandles_x st),
        truthy (contractHandles_y st), signerPromise st with
  | Some inst, Some addr, Some hx, Some hy, Some promise =>
      if negb isContractConfigured then
        ([], TxError "Deploy EncryptedMapGame to Sepolia and update CONTRACT_ADDRESS.")
      else
        let tried : Try Outcome :=
          let* keypair := call CallGenerateKeypair (generateKeypair inst) in
          let contractAddresses := [CONTRACT_ADDRESS] in
          let startTimeStamp := pretty (now st `div` 1000)%Z in
          let durationDays := "10" in
          let* eip712 :=
            call (CallCreateEIP712 (publicKey keypair) contractAddresses
                    startTimeStamp durationDays)
                 (createEIP712 inst (publicKey keypair) contractAddresses
                    startTimeStamp durationDays) in
          let* awaited := ([], promise) in
          let* signer :=
            match awaited with
            | Some signer => pure signer
            | None => throw (ErrorObject "Wallet signer is missing")
            end in
          let* signature :=
            call (CallSignTypedData (domain eip712)
                    (types_UserDecryptRequestVerification eip712) (message eip712))
                 (signTypedData signer (domain eip712)
                    (types_UserDecryptRequestVerification eip712) (message eip712)) in
          let handleContractPairs :=
            [ {| handle := hx; contractAddress := CONTRACT_ADDRESS |};
              {| handle := hy; contractAddress := CONTRACT_ADDRESS |} ] in
          let request :=
            {| req_handleContractPairs := handleContractPairs;
               req_privateKey := privateKey keypair;
               req_publicKey := publicKey keypair;
               req_signature := replace "0x" EmptyString signature;
               req_contractAddresses := contractAddresses;
               req_userAddress := addr;
               req_startTimeStamp := startTimeStamp;
               req_durationDays := durationDays |} in
          let* decrypted := call (CallUserDecrypt request) (userDecrypt inst request) in
          pure (DecryptedPosition (lookup_plain hx decrypted)
                                  (lookup_plain hy decrypted)) in
        match tried with
        | (t, inr outcome) => (t, outcome)
        | (t, inl (ErrorObject msg)) => (t, TxError msg)
        | (t, inl OtherValue) => (t, TxError "Decryption failed")
        end
  | _, _, _, _, _ => ([], TxError "Missing encryption context for decryption.")
  end.

End Flow.

Arguments EIP712 : clear implicits.
Arguments domain {Domain Types Message} _.
Arguments types_UserDecryptRequestVerification {Domain Types Message} _.
Arguments message {Domain Types Message} _.
Arguments generateKeypair {Domain Types Message} _.
Arguments createEIP712 {Domain Types Message} _ _ _ _ _.
Arguments userDecrypt {Domain Types Message} _ _.
Arguments signTypedData {Domain Types Message} _ _ _ _.
Arguments instance {Domain Types Message} _.
Arguments address {Domain Types Message} _.
Arguments contractHandles_x {Domain Types Message} _.
Arguments contractHandles_y {Domain Types Message} _.
Arguments signerPromise {Domain Types Message} _.
Arguments now {Domain Types Message} _.
Arguments CallGenerateKeypair {Domain Types Message}.
Arguments CallCreateEIP712 {Domain Types Message} _ _ _ _.
Arguments CallSignTypedData {Domain Types Message} _ _ _.
Arguments CallUserDecrypt {Domain Types Message} _.
Arguments handleDecrypt {Domain Types Message} _.

(** The signature as the specification words it: the [0x] prefix stripped,
    if present. *)
Definition strip_0x_prefix (s : string) : string :=
  match s with
  | String "0"%char (String "x"%char rest) => rest
  | _ => s
  end.

Definition is_hex_digit (a : ascii) : bool :=
  let n := Ascii.nat_of_ascii a in
  ((48 <=? n) && (n <=? 57) || (97 <=? n) && (n <=? 102) || (65 <=? n) && (n <=? 70))%nat.

Fixpoint all_hex (s : string) : bool :=
  match s with
  | EmptyString => true
  | String a s' => is_hex_digit a && all_hex s'
  end.

(** A signature as a signer returns it: hexadecimal digits, with or without
    the [0x] prefix. *)
Definition hex_string (s : string) : bool := all_hex (strip_0x_prefix s).

End GridGameApp.

(** ** The grid of the web client *)

Module MapGrid.

(** A JavaScript number that is an integer, or one that is not (the handler
    only ever builds integers, or [NaN] for a missing plaintext). *)
Definition number := option Z.

(** [highlight]: the decrypted position, or [null]. *)
Definition Highlight := option (number * number).

(** [Array.from({ length: size }, (_, index) => index + 1)]. *)
Definition rows (size : nat) : list Z :=
  (λ index : nat, Z.of_nat index + 1) <$> seq 0 size.

(** [highlight?.x === column && highlight?.y === row]. *)
Definition isActive (highlight : Highlight) (row column : Z) : bool :=
  match highlight with
  | Some (Some hx, Some hy) => (hx =? column) && (hy =? row)
  | _ => false
  end.

(** One rendered cell: its label [column,row] and whether it is marked. *)
Record Cell := { cell_column : Z; cell_row : Z; cell_active : bool }.

(** The rendered grid: one list of cells per row. *)
Definition MapGrid (size : nat) (highlight : Highlight) : list (list Cell) :=
  (λ row,
     (λ column,
        {| cell_column := column; cell_row := row;
           cell_active := isActive highlight row column |}) <$> rows size)
  <$> rows size.

(** The marked cells of a rendered grid. *)
Definition marked (grid : list (list Cell)) : list Cell :=
  filter (λ c, cell_active c = true) (concat grid).

(** The [decryptedPosition] the application holds, and passes as
    [highlight], after a run of the decryption handler: the handler sets it
    on success and leaves the previous one on failure. *)
Definition highlight_after (previous : Highlight) (o : GridGameApp.Outcome)
  : Highlight :=
  match o with
  | GridGameApp.DecryptedPosition px py => Some (px, py)
  | GridGameApp.TxError _ => previous
  end.

End MapGrid.

(** ** The join and move handlers of the web client *)

Module Handlers.

Import GridGameApp.

Local Open Scope string_scope.

(** What the SDK returns from [payload.encrypt()]. *)
Record EncryptedInput := { handles : list string; inputProof : string }.

(** Everything a handler does that the outside can see: the state setters
    of the component, the calls on the wallet, the contract, the SDK and the
    query hooks, and the console. *)
Inductive Effect :=
| PreventDefault
| SetTxError (e : option string)
| SetStatusMessage (m : string)
| SetIsJoining (b : bool)
| SetIsMoving (b : bool)
| SetDecryptedPositionNull
| AwaitSignerPromise
| ContractJoinGame
| ContractMove (hx hy : option string) (proof : string)
| TxWait
| RefetchJoined
| RefetchPosition
| CreateEncryptedInput (contract user : string)
| Add8 (v : Z)
| Encrypt
| ConsoleError (label : string) (e : Thrown).

(** The body of a [try]: the effects so far, and a value or what was thrown. *)
Definition Run (A : Type) : Type := list Effect * (Thrown + A).

Definition pure {A} (a : A) : Run A := ([], inr a).

Definition throw {A} (e : Thrown) : Run A := ([], inl e).

Definition and_then {A B} (m : Run A) (k : A → Run B) : Run B :=
  match m with
  | (t, inl e) => (t, inl e)
  | (t, inr a) => let '(t', r) := k a in ((t ++ t')%list, r)
  end.

(** A state setter or a log line. *)
Definition tell (e : Effect) : Run unit := ([e], inr tt).

(** A call on a collaborator, answered by [r]. *)
Definition ask {A} (e : Effect) (r : Thrown + A) : Run A := ([e], r).

Local Notation "'let*' p ':=' m 'in' k" := (and_then m (fun p => k))
  (at level 10, p pattern, m at level 100, k at level 200).
Local Notation "m ';;' k" := (and_then m (fun _ => k))
  (at level 100, k at level 200, right associativity).

(** [catch (error) { console.error(label, error); setTxError(error instanceof
    Error ? error.message : fallback); setStatusMessage(''); } finally
    { release }]. *)
Definition caught (label fallback : string) (release : Effect) (body : Run unit)
  : list Effect :=
  match body with
  | (t, inr _) => (t ++ [release])%list
  | (t, inl e) =>
      (t ++ [ ConsoleError label e;
              SetTxError (Some match e with
                               | ErrorObject msg => msg
                               | OtherValue => fallback
                               end);
              SetStatusMessage EmptyString;
              release ])%list
  end.

(** What the join handler finds: the connected address, the signer promise
    ([Some r], [r] being what awaiting it gives: a rejection, or whether a
    signer came out), and the answers of the contract call, of the
    confirmation and of the two refetches. *)
Record JoinWorld := {
  jw_address : option string;
  jw_signerPromise : option (Thrown + bool);
  jw_joinGame : Thrown + unit;
  jw_wait : Thrown + unit;
  jw_refetchJoined : Thrown + unit;
  jw_refetchPosition : Thrown + unit
}.

Definition handleJoin (w : JoinWorld) : list Effect :=
  match truthy (jw_address w) with
  | None => [SetTxError (Some "Connect your wallet to start playing.")]
  | Some _ =>
  match jw_signerPromise w with
  | None => [SetTxError (Some "Wallet signer is unavailable.")]
  | Some promise =>
  if negb isContractConfigured then
    [SetTxError (Some "Deploy EncryptedMapGame to Sepolia and update CONTRACT_ADDRESS.")]
  else
    caught "Failed to join game" "Join request failed" (SetIsJoining false)
      (tell (SetTxError None) ;;
       tell (SetStatusMessage "Waiting for wallet confirmation...") ;;
       tell (SetIsJoining true) ;;
       let* signer := ask AwaitSignerPromise promise in
       (if signer : bool then pure tt
        else throw (ErrorObject "Wallet signer is missing")) ;;
       ask ContractJoinGame (jw_joinGame w) ;;
       tell (SetStatusMessage "Confirming transaction...") ;;
       ask TxWait (jw_wait w) ;;
       tell (SetStatusMessage "Player joined. Fetching map data...") ;;
       ask RefetchJoined (jw_refetchJoined w) ;;
       ask RefetchPosition (jw_refetchPosition w) ;;
       tell (SetStatusMessage EmptyString))
  end
  end.

(** What the move handler finds.  [mw_selectedX] and [mw_selectedY] are the
    two numbers of the form ([None] for a number that is not an integer, on
    which [BigInt] throws a [RangeError] with the message
    [mw_rangeError]); [mw_joined] is the [hasJoined] answer the component
    holds; the SDK instance is there or not, and answers the builder calls. *)
Record MoveWorld := {
  mw_address : option string;
  mw_joined : bool;
  mw_instance : bool;
  mw_signerPromise : option (Thrown + bool);
  mw_selectedX : option Z;
  mw_selectedY : option Z;
  mw_rangeError : string;
  mw_createEncryptedInput : string → string → Thrown + unit;
  mw_add8 : Z → Thrown + unit;
  mw_encrypt : string → string → list Z → Thrown + EncryptedInput;
  mw_move : option string → option string → string → Thrown + unit;
  mw_wait : Thrown + unit;
  mw_refetchPosition : Thrown + unit
}.

(** [BigInt(n)]. *)
Definition BigInt (w : MoveWorld) (n : option Z) : Run Z :=
  match n with
  | Some z => pure z
  | None => throw (ErrorObject (mw_rangeError w))
  end.

Definition handleMove (w : MoveWorld) : list Effect :=
  PreventDefault ::
  match truthy (mw_address w) with
  | None => [SetTxError (Some "Connect your wallet to move.")]
  | Some address =>
  if negb (mw_joined w) then [SetTxError (Some "Join the grid before moving.")]
  else if negb (mw_instance w) then
    [SetTxError (Some "Encryption service is still starting.")]
  else
  match mw_signerPromise w with
  | None => [SetTxError (Some "Wallet signer is unavailable.")]
  | Some promise =>
  if negb isContractConfigured then
    [SetTxError (Some "Deploy EncryptedMapGame to Sepolia and update CONTRACT_ADDRESS.")]
  else
    caught "Failed to move player" "Move request failed" (SetIsMoving false)
      (tell (SetTxError None) ;;
       tell (SetStatusMessage "Encrypting coordinates...") ;;
       tell (SetIsMoving true) ;;
       ask (CreateEncryptedInput CONTRACT_ADDRESS address)
           (mw_createEncryptedInput w CONTRACT_ADDRESS address) ;;
       let* bx := BigInt w (mw_selectedX w) in
       ask (Add8 bx) (mw_add8 w bx) ;;
       let* by_ := BigInt w (mw_selectedY w) in
       ask (Add8 by_) (mw_add8 w by_) ;;
       let* encryptedInput :=
         ask Encrypt (mw_encrypt w CONTRACT_ADDRESS address [bx; by_]) in
       let* signer := ask AwaitSignerPromise promise in
       (if signer : bool then pure tt
        else throw (ErrorObject "Wallet signer is missing")) ;;
       ask (ContractMove (handles encryptedInput !! 0%nat)
                         (handles encryptedInput !! 1%nat)
                         (inputProof encryptedInput))
           (mw_move w (handles encryptedInput !! 0%nat)
                      (handles encryptedInput !! 1%nat)
                      (inputProof encryptedInput)) ;;
       tell (SetStatusMessage "Confirming move transaction...") ;;
       ask TxWait (mw_wait w) ;;
       tell (SetStatusMessage "Position updated. Refreshing data...") ;;
       tell SetDecryptedPositionNull ;;
       ask RefetchPosition (mw_refetchPosition w) ;;
       tell (SetStatusMessage EmptyString))
  end
  end.

(** The part of the component's state the handlers set. *)
Record View := {
  txError : option string;
  statusMessage : string;
  isJoining : bool;
  isMoving : bool;
  decryptedPosition : MapGrid.Highlight
}.

(** The effect of one setter on the state; calls and log lines leave it. *)
Definition set (e : Effect) (v : View) : View :=
  match e with
  | SetTxError m =>
      {| txError := m; statusMessage := statusMessage v; isJoining := isJoining v;
         isMoving := isMoving v; decryptedPosition := decryptedPosition v |}
  | SetStatusMessage m =>
      {| txError := txError v; statusMessage := m; isJoining := isJoining v;
         isMoving := isMoving v; decryptedPosition := decryptedPosition v |}
  | SetIsJoining b =>
      {| txError := txError v; statusMessage := statusMessage v; isJoining := b;
         isMoving := isMoving v; decryptedPosition := decryptedPosition v |}
  | SetIsMoving b =>
      {| txError := txError v; statusMessage := statusMessage v;
         isJoining := isJoining v; isMoving := b;
         decryptedPosition := decryptedPosition v |}
  | SetDecryptedPositionNull =>
      {| txError := txError v; statusMessage := statusMessage v;
         isJoining := isJoining v; isMoving := isMoving v;
         decryptedPosition := None |}
  | _ => v
  end.

(** The state after the effects of a run, in order. *)
Definition view_after (t : list Effect) (v : View) : View :=
  foldl (λ v e, set e v) v t.

(** Every answer the join handler waits for came back without a throw. *)
Definition join_confirmed (w : JoinWorld) : Prop :=
  is_Some (truthy (jw_address w)) ∧
  jw_signerPromise w = Some (inr true) ∧
  jw_joinGame w = inr tt ∧ jw_wait w = inr tt ∧
  jw_refetchJoined w = inr tt ∧ jw_refetchPosition w = inr tt.

(** The move got as far as a confirmed transaction: the guards passed, both
    numbers were integers, the SDK took and encrypted them, the signer came,
    and the contract call and its confirmation went through. *)
Definition move_mined (w : MoveWorld) : Prop :=
  ∃ address bx by_ enc,
    truthy (mw_address w) = Some address ∧
    mw_joined w = true ∧ mw_instance w = true ∧
    mw_signerPromise w = Some (inr true) ∧
    mw_selectedX w = Some bx ∧ mw_selectedY w = Some by_ ∧
    mw_createEncryptedInput w CONTRACT_ADDRESS address = inr tt ∧
    mw_add8 w bx = inr tt ∧ mw_add8 w by_ = inr tt ∧
    mw_encrypt w CONTRACT_ADDRESS address [bx; by_] = inr enc ∧
    mw_move w (handles enc !! 0%nat) (handles enc !! 1%nat) (inputProof enc)
    = inr tt ∧
    mw_wait w = inr tt.

End Handlers.

(** ** Occurrences of a pattern in a string *)

(** [pat] occurs in [s] at index [i]. *)
Definition occurs_at (pat s : string) (i : nat) : Prop :=
  GridGameApp.starts_with pat (GridGameApp.drop i s) = true.

(** [s.slice(0, n)]. *)
Fixpoint take_string (n : nat) (s : string) : string :=
  match n, s with
  | S n', String a s' => String a (take_string n' s')
  | _, _ => EmptyString
  end.

Import FHE EncryptedMapGame.

(** ** Executions *)

(** A state-changing call, with what the environment contributes to it: the
    sender and, for [joinGame], the two draws of the generator. *)
Inductive Call :=
| CallJoinGame (msg_sender : address) (rx ry : Z)
| CallMove (msg_sender : address) (encryptedX encryptedY : externalEuint8)
    (inputProof : InputProof).

Definition dispatch (c : Call) : M unit :=
  match c with
  | CallJoinGame a rx ry => joinGame a rx ry
  | CallMove a ex ey pf => move a ex ey pf
  end.

Definition sender (c : Call) : address :=
  match c with CallJoinGame a _ _ | CallMove a _ _ _ => a end.

Inductive Receipt := Success | Failed (e : Error).

(** What a caller of a view sees: the returned value or the error. *)
Definition answer {A} (r : Result A) : Error + A :=
  match r with Ok a _ => inr a | Revert e => inl e end.

(** A transaction either commits the state its call reaches or, on revert,
    leaves the state it started from. *)
Definition transact (c : Call) (s : Ledger) : Receipt * Ledger :=
  match dispatch c s with
  | Ok _ s' => (Success, s')
  | Revert e => (Failed e, s)
  end.

(** A history of transactions, with the receipt of each. *)
Fixpoint run (cs : list Call) (s : Ledger) : list Receipt * Ledger :=
  match cs with
  | [] => ([], s)
  | c :: cs' =>
      let '(r, s') := transact c s in
      let '(rs, s'') := run cs' s' in
      (r :: rs, s'')
  end.

(** The states the ledger can be in: the deployed one, and any state a
    transaction leaves from a reachable one. *)
Inductive reachable : Ledger → Prop :=
| reachable_deployed a : reachable (deployed a)
| reachable_transact c s : reachable s → reachable (transact c s).2.

(** ** Reference definitions *)

(** The clamp of the specification: [min(max(v, 1), 10)]. *)
Definition clamp (v : Z) : Z := Z.min (Z.max v 1) 10.

(** The join path as the specification words it: the raw candidate
    [(random_u8 mod MAX) + MIN], then the two-select clamp of the move path. *)
Definition clamped_randomCoordinate (r : Z) : M handle :=
  bind (_randomCoordinate r) _clampCoordinate.

(** The decrypted position of [a], when both handles name a ciphertext. *)
Definition position (s : Ledger) (a : address) : option (Z * Z) :=
  match decrypt (fhe s) (x (player_at s a)), decrypt (fhe s) (y (player_at s a)) with
  | Some vx, Some vy => Some (vx, vy)
  | _, _ => None
  end.

Definition on_grid (v : Z) : Prop := 1 ≤ v ≤ 10.

(** ** Derived notions *)

(** The coprocessor grows: every cell of [c] is still there in [c']. *)
Definition extends (c c' : Coprocessor) : Prop := cts c `prefix_of` cts c'.

(** The access list after [_grantAccess]: the contract and the owner, on both
    coordinates, on top of what was granted before. *)
Definition granted (hx hy : handle) (this owner : address) (c : Coprocessor)
  : Coprocessor :=
  FHE.allow hy owner (FHE.allow hx owner (FHE.allow hy this (FHE.allow hx this c))).

(** The state a successful [joinGame] or [move] commits. *)
Definition committed (s : Ledger) (p : address) (hx hy : handle) (c : Coprocessor)
    (e : Event) : Ledger :=
  {| self := self s;
     _players := <[p := {| x := hx; y := hy; active := true |}]> (_players s);
     fhe := granted hx hy (self s) p c;
     events := events s ++ [e] |}.

(** An input is imported exactly when the proof is bound to this contract and
    this sender and covers the handle. *)
Definition proof_covers (this sender : address) (e : externalEuint8)
    (pf : InputProof) : Prop :=
  ip_contract pf = this ∧ ip_user pf = sender ∧ is_Some (ip_values pf !! e).

(** The invariant of the ledger: every active record is on the grid. *)
Definition grid_invariant (s : Ledger) : Prop :=
  ∀ a, active (player_at s a) = true →
       ∃ vx vy, position s a = Some (vx, vy) ∧ on_grid vx ∧ on_grid vy.

(** ** Concrete scenarios *)

Definition game : address := 99%N.
Definition alice : address := 1%N.
Definition bob : address := 2%N.

(** Alice joins a freshly deployed game; the generator draws 255 and 13. *)
Definition alice_joined : Ledger :=
  (transact (CallJoinGame alice 255 13) (deployed game)).2.

(** A client input packing the plaintexts [vs] for [user]. *)
Definition encrypted_input (user : address) (vs : list Z) : InputProof :=
  {| ip_contract := game; ip_user := user; ip_values := vs |}.

(** Alice then moves to the plaintext pair (0, 42). *)
Definition alice_moved : Ledger :=
  (transact (CallMove alice 0%nat 1%nat (encrypted_input alice [0; 42])) alice_joined).2.

(** Alice and Bob have both joined, and Bob has moved. *)
Definition two_players : Ledger :=
  (run [CallJoinGame alice 255 13; CallJoinGame bob 7 200;
        CallMove bob 0%nat 1%nat (encrypted_input bob [3; 250])] (deployed game)).2.

Section Session.

Import GridGameApp.

(** A session: the wallet signs with a prefixed signature, at
    1760000000123 ms after the epoch. *)
Definition session_instance : ZamaInstance string string string :=
  {| generateKeypair := inr {| publicKey := "04pub"; privateKey := "priv" |};
     createEIP712 := fun pk scope start days =>
       inr {| domain := "Decryption";
              types_UserDecryptRequestVerification := "UserDecryptRequestVerification";
              message := pk +:+ "|" +:+ start +:+ "|" +:+ days |};
     userDecrypt := fun r =>
       inr (List.map (fun p => (handle p, 7)) (req_handleContractPairs r)) |}.

Definition session_signer : Signer string string string :=
  {| signTypedData := fun _ _ _ => inr "0x1b2c3d" |}.

Definition session : Component string string string :=
  {| instance := Some session_instance;
     address := Some "0xA11ce";
     contractHandles_x := Some "0x01";
     contractHandles_y := Some "0x02";
     signerPromise := Some (inr (Some session_signer));
     now := 1760000000123 |}.

End Session.

(** ** Further notions: grants, events, draws *)

(** [a] may ask for the decryption of [h]. *)
Definition granted_to (s : Ledger) (h : handle) (a : address) : Prop :=
  (h, a) ∈ acl (fhe s).

#[global] Instance granted_to_dec s h a : Decision (granted_to s h a).
Proof. unfold granted_to. apply _. Defined.

(** The event a call emits when it succeeds. *)
Definition event_of (c : Call) : Event :=
  match c with
  | CallJoinGame a _ _ => PlayerJoined a
  | CallMove a _ _ _ => PlayerMoved a
  end.

(** The events of a history: one per successful transaction, in order. *)
Fixpoint emitted (cs : list Call) (rs : list Receipt) : list Event :=
  match cs, rs with
  | c :: cs', Success :: rs' => event_of c :: emitted cs' rs'
  | _ :: cs', Failed _ :: rs' => emitted cs' rs'
  | _, _ => []
  end.

(** The plaintext of the coordinate [_randomCoordinate] builds from the
    draw [r]. *)
Definition drawn_coordinate (s : Ledger) (r : Z) : option Z :=
  match _randomCoordinate r s with
  | Ok h s' => decrypt (fhe s') h
  | Revert _ => None
  end.

(** The 256 values of an 8-bit draw. *)
Definition draws : list Z := seqZ 0 256.

(** The access invariant of the ledger: the handles of an active record name
    ciphertexts and are granted to the contract and to the record's owner, and
    to nobody else; a grant is always on a ciphertext that exists. *)
Record access_invariant (s : Ledger) : Prop := {
  handles_allocated : ∀ p, active (player_at s p) = true →
    is_Some (decrypt (fhe s) (x (player_at s p))) ∧
    is_Some (decrypt (fhe s) (y (player_at s p)));
  grants_allocated : ∀ h a, granted_to s h a → is_Some (decrypt (fhe s) h);
  owner_granted : ∀ p, active (player_at s p) = true →
    granted_to s (x (player_at s p)) p ∧ granted_to s (y (player_at s p)) p ∧
    granted_to s (x (player_at s p)) (self s) ∧
    granted_to s (y (player_at s p)) (self s);
  grants_exclusive : ∀ p a, active (player_at s p) = true →
    granted_to s (x (player_at s p)) a ∨ granted_to s (y (player_at s p)) a →
    a = self s ∨ a = p
}.

Section HandlerScenarios.

Import GridGameApp Handlers.

(** A join that goes through. *)
Definition join_world : JoinWorld :=
  {| jw_address := Some "0xA11ce";
     jw_signerPromise := Some (inr true);
     jw_joinGame := inr tt; jw_wait := inr tt;
     jw_refetchJoined := inr tt; jw_refetchPosition := inr tt |}.

(** A move to (7, 8) that is confirmed, after which the refetch fails. *)
Definition move_world : MoveWorld :=
  {| mw_address := Some "0xA11ce";
     mw_joined := true; mw_instance := true;
     mw_signerPromise := Some (inr true);
     mw_selectedX := Some 7; mw_selectedY := Some 8;
     mw_rangeError := "The number is not an integer";
     mw_createEncryptedInput := λ _ _, inr tt;
     mw_add8 := λ _, inr tt;
     mw_encrypt := λ _ _ vs,
       inr {| handles := (λ v : Z, "h" +:+ pretty v) <$> vs; inputProof := "proof" |};
     mw_move := λ _ _ _, inr tt;
     mw_wait := inr tt;
     mw_refetchPosition := inl (ErrorObject "network down") |}.

(** A component at rest that shows an earlier decrypted position. *)
Definition resting_view : View :=
  {| txError := None; statusMessage := EmptyString;
     isJoining := false; isMoving := false;
     decryptedPosition := Some (Some 6, Some 4) |}.

End HandlerScenarios.

(** ** The decryption task of the command line *)




(** * Proofs *)

(** ** The coprocessor only ever grows *)

Section Coprocessor.

#[global] Instance extends_preorder : PreOrder extends.
Proof.
  split.
  - intros c. unfold extends. reflexivity.
  - intros c1 c2 c3 H12 H23. unfold extends in *. by etrans.
Qed.

Lemma decrypt_extends c c' h v :
  extends c c' → decrypt c h = Some v → decrypt c' h = Some v.
Proof.
  unfold extends, decrypt, cell. intros Hpre. destruct h as [|i]; [done|].
  destruct (cts c !! i) as [ct|] eqn:E; [|done].
  intros [= <-]. by rewrite (prefix_lookup_Some _ _ _ _ E Hpre).
Qed.

Lemma plain_decrypt c h v : decrypt c h = Some v → plain c h = v.
Proof. unfold plain. by intros ->. Qed.

Lemma emit_spec k t v c h c' :
  emit k t v c = (h, c') →
  decrypt c' h = Some (wrap t v) ∧ extends c c' ∧
  acl c' = acl c ∧ oplog c' = oplog c ++ [k].
Proof.
  intros [= <- <-]. repeat split.
  - unfold decrypt, cell. cbn. by rewrite list_lookup_middle.
  - unfold extends. cbn. by apply prefix_app_r.
Qed.

Lemma wrap_small t v : 0 ≤ v < 2 ^ bits t → wrap t v = v.
Proof. intros H. unfold wrap. by apply Z.mod_small. Qed.

Lemma wrap_range t v : 0 ≤ wrap t v < 2 ^ bits t.
Proof. unfold wrap. apply Z.mod_pos_bound. by destruct t. Qed.

End Coprocessor.

(** ** Stepping through the contract's code *)

Section Stepping.

Lemma with_fhe_with_fhe c c' s : with_fhe c' (with_fhe c s) = with_fhe c' s.
Proof. reflexivity. Qed.

Lemma bind_op {B} f (k : handle → M B) s h c :
  f (fhe s) = (h, c) → bind (op f) k s = k h (with_fhe c s).
Proof. intros E. unfold bind, op. by rewrite E. Qed.

Lemma op_eq f s h c : f (fhe s) = (h, c) → op f s = Ok h (with_fhe c s).
Proof. intros E. unfold op. by rewrite E. Qed.

Lemma player_at_with_fhe c s a : player_at (with_fhe c s) a = player_at s a.
Proof. reflexivity. Qed.

Lemma player_at_write_eq a f s : player_at (write a f s) a = f (player_at s a).
Proof. unfold player_at at 1, write. cbn. by rewrite lookup_insert_eq. Qed.

End Stepping.

(** Run the next coprocessor operation of the goal and record what it did. *)
Ltac fhe_step h c :=
  let E := fresh "E" in
  lazymatch goal with
  | |- context [bind (op ?f) _ ?s] =>
      destruct (f (fhe s)) as [h c] eqn:E;
      rewrite (bind_op f _ s h c E);
      apply emit_spec in E as (? & ? & ? & ?)
  | |- context [op ?f ?s] =>
      destruct (f (fhe s)) as [h c] eqn:E;
      rewrite (op_eq f s h c E);
      apply emit_spec in E as (? & ? & ? & ?)
  end;
  rewrite ?with_fhe_with_fhe; cbn [fhe with_fhe] in *.

(** Replace operand reads by the plaintext the operand is known to hold. *)
Ltac plain_known :=
  repeat match goal with
  | H : context [plain ?c ?h] |- _ =>
      erewrite (plain_decrypt c h) in H by eauto 12 using decrypt_extends
  | |- context [plain ?c ?h] =>
      erewrite (plain_decrypt c h) by eauto 12 using decrypt_extends
  end.

(** Drop the wrap-around of a value that fits its width. *)
Ltac wrap_small_tac :=
  repeat match goal with
  | H : context [wrap ?t ?v] |- _ => rewrite (wrap_small t v) in H by (cbn; lia)
  | |- context [wrap ?t ?v] => rewrite (wrap_small t v) by (cbn; lia)
  end.

Section Coordinates.

(** The plaintext the two selects leave, as the coprocessor computes it. *)
Lemma two_selects_clamp v :
  0 ≤ v < 256 →
  let low := wrap Uint8 (if wrap Bool (if v <? 1 then 1 else 0) =? 0 then v else 1) in
  wrap Uint8 (if wrap Bool (if low >? 10 then 1 else 0) =? 0 then low else 10)
  = clamp v.
Proof.
  intros Hv. unfold clamp. cbv zeta.
  destruct (Z.ltb_spec v 1); wrap_small_tac; simpl (_ =? 0); wrap_small_tac.
  - simpl. lia.
  - destruct (Z.gtb_spec v 10); wrap_small_tac; simpl (_ =? 0); wrap_small_tac;
      cbv iota; lia.
Qed.

(** The raw candidate of the join path: [(r mod 10) + 1] for the 8-bit draw,
    through a 32-bit widening and a narrowing back to 8 bits. *)
Lemma randomCoordinate_spec r s :
  ∃ h c, _randomCoordinate r s = Ok h (with_fhe c s) ∧
    decrypt c h = Some (wrap Uint8 r mod 10 + 1) ∧
    extends (fhe s) c ∧ acl c = acl (fhe s) ∧
    oplog c = oplog (fhe s) ++ [KRand; KCast; KRem; KTrivialEncrypt; KAdd; KCast].
Proof.
  unfold _randomCoordinate.
  fhe_step h1 c1. fhe_step h2 c2. fhe_step h3 c3.
  fhe_step h4 c4. fhe_step h5 c5. fhe_step h6 c6.
  exists h6, c6. split; [done|].
  unfold MAX_COORDINATE, MIN_COORDINATE in *.
  pose proof (wrap_range Uint8 r) as Hr. cbn in Hr.
  pose proof (Z.mod_pos_bound (wrap Uint8 r) 10 ltac:(lia)).
  plain_known. set (w := wrap Uint8 r) in *. wrap_small_tac.
  repeat split.
  - done.
  - by repeat (etrans; [eassumption|]).
  - congruence.
  - repeat match goal with H : oplog _ = _ |- _ => rewrite H; clear H end.
    by rewrite <- !app_assoc.
Qed.

(** The two selects compute [min(max(v, 1), 10)] on every 8-bit plaintext. *)
Lemma clampCoordinate_spec h v s :
  decrypt (fhe s) h = Some v → 0 ≤ v < 256 →
  ∃ h' c, _clampCoordinate h s = Ok h' (with_fhe c s) ∧
    decrypt c h' = Some (clamp v) ∧
    extends (fhe s) c ∧ acl c = acl (fhe s) ∧
    oplog c = oplog (fhe s) ++
      [KTrivialEncrypt; KTrivialEncrypt; KLt; KSelect; KGt; KSelect].
Proof.
  intros Hh Hv. unfold _clampCoordinate.
  fhe_step h1 c1. fhe_step h2 c2. fhe_step h3 c3.
  fhe_step h4 c4. fhe_step h5 c5. fhe_step h6 c6.
  exists h6, c6. split; [done|].
  unfold MAX_COORDINATE, MIN_COORDINATE in *.
  plain_known. wrap_small_tac.
  repeat split.
  - rewrite <- (two_selects_clamp v Hv). done.
  - by repeat (etrans; [eassumption|]).
  - congruence.
  - repeat match goal with H : oplog _ = _ |- _ => rewrite H; clear H end.
    by rewrite <- !app_assoc.
Qed.

End Coordinates.

(** ** What a successful call leaves behind *)

Section Calls.

Lemma bind_ok {A B} (m : M A) (k : A → M B) s a s' :
  m s = Ok a s' → bind m k s = k a s'.
Proof. intros E. unfold bind. by rewrite E. Qed.

Lemma bind_revert {A B} (m : M A) (k : A → M B) s e :
  m s = Revert e → bind m k s = Revert e.
Proof. intros E. unfold bind. by rewrite E. Qed.

Lemma grantAccess_spec a owner s :
  _grantAccess a owner s =
  Ok tt (with_fhe (granted (x (player_at s a)) (y (player_at s a)) (self s) owner (fhe s)) s).
Proof. reflexivity. Qed.

Lemma randomPosition_spec rx ry s :
  ∃ hx hy c, _randomPosition rx ry s = Ok (hx, hy) (with_fhe c s) ∧
    decrypt c hx = Some (wrap Uint8 rx mod 10 + 1) ∧
    decrypt c hy = Some (wrap Uint8 ry mod 10 + 1) ∧
    extends (fhe s) c ∧ acl c = acl (fhe s) ∧
    oplog c = oplog (fhe s) ++
      [KRand; KCast; KRem; KTrivialEncrypt; KAdd; KCast;
       KRand; KCast; KRem; KTrivialEncrypt; KAdd; KCast].
Proof.
  unfold _randomPosition.
  destruct (randomCoordinate_spec rx s) as (hx & c1 & E1 & Dx & X1 & A1 & L1).
  destruct (randomCoordinate_spec ry (with_fhe c1 s)) as (hy & c2 & E2 & Dy & X2 & A2 & L2).
  cbn [fhe with_fhe] in *. rewrite with_fhe_with_fhe in E2.
  exists hx, hy, c2.
  rewrite (bind_ok _ _ _ _ _ E1), (bind_ok _ _ _ _ _ E2).
  repeat split; [by eapply decrypt_extends|done|by etrans|congruence|].
  rewrite L2, L1. by rewrite <- app_assoc.
Qed.

Lemma bind_load {B} a (k : PlayerPosition → M B) s :
  bind (load a) k s = k (player_at s a) s.
Proof. reflexivity. Qed.

Lemma bind_store {B} a f (k : unit → M B) s :
  bind (store a f) k s = k tt (write a f s).
Proof. reflexivity. Qed.

(** Successive writes through the same storage pointer. *)
Lemma write_write a f g s : write a g (write a f s) = write a (g ∘ f) s.
Proof.
  unfold write. cbn [self _players fhe events].
  unfold player_at at 1. cbn [_players].
  rewrite lookup_insert_eq. cbn [default].
  by rewrite insert_insert_eq.
Qed.

Lemma joinGame_fresh p rx ry s :
  active (player_at s p) = false →
  ∃ hx hy c,
    joinGame p rx ry s = Ok tt (committed s p hx hy c (PlayerJoined p)) ∧
    decrypt c hx = Some (wrap Uint8 rx mod 10 + 1) ∧
    decrypt c hy = Some (wrap Uint8 ry mod 10 + 1) ∧
    extends (fhe s) c ∧ acl c = acl (fhe s) ∧
    oplog c = oplog (fhe s) ++
      [KRand; KCast; KRem; KTrivialEncrypt; KAdd; KCast;
       KRand; KCast; KRem; KTrivialEncrypt; KAdd; KCast].
Proof.
  intros Hact. unfold joinGame. rewrite bind_load, Hact. cbv iota.
  destruct (randomPosition_spec rx ry s) as (hx & hy & c & E & Dx & Dy & X & A & L).
  exists hx, hy, c. split; [|repeat split; assumption].
  rewrite (bind_ok _ _ _ _ _ E). cbn [fst snd].
  rewrite !bind_store, !write_write.
  rewrite (bind_ok _ _ _ _ _ (grantAccess_spec _ _ _)).
  rewrite player_at_write_eq. reflexivity.
Qed.

Lemma fromExternal_valid sender e pf v s :
  ip_contract pf = self s → ip_user pf = sender → ip_values pf !! e = Some v →
  ∃ h c, fromExternal sender e pf s = Ok h (with_fhe c s) ∧
    decrypt c h = Some (wrap Uint8 v) ∧ extends (fhe s) c ∧
    acl c = acl (fhe s) ∧ oplog c = oplog (fhe s) ++ [KVerifyInput].
Proof.
  intros Hc Hu Hv. unfold fromExternal, FHE.fromExternal.
  rewrite !bool_decide_eq_true_2 by done. rewrite Hv. cbn [andb].
  destruct (emit KVerifyInput Uint8 v (fhe s)) as [h c] eqn:E.
  exists h, c. split; [done|]. by apply emit_spec in E.
Qed.

Lemma fromExternal_invalid sender e pf s :
  ¬ proof_covers (self s) sender e pf →
  fromExternal sender e pf s = Revert InvalidProof.
Proof.
  intros Hn. unfold fromExternal, FHE.fromExternal.
  destruct (bool_decide_reflect (ip_contract pf = self s)) as [Hc|]; [|done].
  destruct (bool_decide_reflect (ip_user pf = sender)) as [Hu|]; [|done].
  cbn [andb]. destruct (ip_values pf !! e) as [v|] eqn:Hv; [|done].
  destruct Hn. unfold proof_covers. eauto.
Qed.

Lemma move_registered p ex ey pf vx vy s :
  active (player_at s p) = true →
  ip_contract pf = self s → ip_user pf = p →
  ip_values pf !! ex = Some vx → ip_values pf !! ey = Some vy →
  ∃ hx hy c,
    move p ex ey pf s = Ok tt (committed s p hx hy c (PlayerMoved p)) ∧
    decrypt c hx = Some (clamp (wrap Uint8 vx)) ∧
    decrypt c hy = Some (clamp (wrap Uint8 vy)) ∧
    extends (fhe s) c ∧ acl c = acl (fhe s) ∧
    oplog c = oplog (fhe s) ++
      [KVerifyInput; KTrivialEncrypt; KTrivialEncrypt; KLt; KSelect; KGt; KSelect;
       KVerifyInput; KTrivialEncrypt; KTrivialEncrypt; KLt; KSelect; KGt; KSelect].
Proof.
  intros Hact Hc Hu Hx Hy. unfold move. rewrite bind_load, Hact. cbv iota. cbn [negb].
  destruct (fromExternal_valid p ex pf vx s Hc Hu Hx)
    as (i1 & c1 & E1 & D1 & X1 & A1 & L1).
  rewrite (bind_ok _ _ _ _ _ E1).
  destruct (clampCoordinate_spec i1 (wrap Uint8 vx) (with_fhe c1 s) D1)
    as (hx & c2 & E2 & D2 & X2 & A2 & L2); [apply (wrap_range Uint8)|].
  rewrite (bind_ok _ _ _ _ _ E2). cbn [fhe with_fhe] in *.
  rewrite with_fhe_with_fhe.
  destruct (fromExternal_valid p ey pf vy (with_fhe c2 s) Hc Hu Hy)
    as (i2 & c3 & E3 & D3 & X3 & A3 & L3).
  rewrite (bind_ok _ _ _ _ _ E3). cbn [fhe with_fhe] in *.
  rewrite with_fhe_with_fhe.
  destruct (clampCoordinate_spec i2 (wrap Uint8 vy) (with_fhe c3 s) D3)
    as (hy & c4 & E4 & D4 & X4 & A4 & L4); [apply (wrap_range Uint8)|].
  rewrite (bind_ok _ _ _ _ _ E4). cbn [fhe with_fhe] in *.
  rewrite with_fhe_with_fhe.
  exists hx, hy, c4. split.
  - rewrite !bind_store, !write_write.
    rewrite (bind_ok _ _ _ _ _ (grantAccess_spec _ _ _)).
    rewrite player_at_write_eq, player_at_with_fhe.
    unfold emit_event, committed, log, write, compose, set_y, set_x.
    rewrite player_at_with_fhe. cbn [x y active self _players fhe events with_fhe].
    by rewrite Hact.
  - repeat split; try done.
    + eapply decrypt_extends; [|exact D2]. by etrans.
    + by repeat (etrans; [eassumption|]).
    + congruence.
    + rewrite L4, L3, L2, L1. by rewrite <- !app_assoc.
Qed.

#[global] Instance proof_covers_dec this sender e pf :
  Decision (proof_covers this sender e pf).
Proof. unfold proof_covers. apply _. Defined.

(** When [move] gets past its first check, it fails only on the input proof. *)
Lemma move_invalid p ex ey pf s :
  active (player_at s p) = true →
  ¬ (proof_covers (self s) p ex pf ∧ proof_covers (self s) p ey pf) →
  move p ex ey pf s = Revert InvalidProof.
Proof.
  intros Hact Hn. unfold move. rewrite bind_load, Hact. cbv iota. cbn [negb].
  destruct (decide (proof_covers (self s) p ex pf)) as [(Hc & Hu & vx & Hx)|Hx].
  - destruct (fromExternal_valid p ex pf vx s Hc Hu Hx)
      as (i1 & c1 & E1 & D1 & _).
    rewrite (bind_ok _ _ _ _ _ E1).
    destruct (clampCoordinate_spec i1 (wrap Uint8 vx) (with_fhe c1 s) D1)
      as (hx & c2 & E2 & _); [apply (wrap_range Uint8)|].
    rewrite (bind_ok _ _ _ _ _ E2).
    apply bind_revert, fromExternal_invalid. cbn [self with_fhe].
    intros Hy. apply Hn. split; [|done]. unfold proof_covers. eauto.
  - by apply bind_revert, fromExternal_invalid.
Qed.

Lemma move_unregistered p ex ey pf s :
  active (player_at s p) = false →
  move p ex ey pf s = Revert PlayerNotRegistered.
Proof. intros Hact. unfold move. by rewrite bind_load, Hact. Qed.

Lemma joinGame_joined p rx ry s :
  active (player_at s p) = true →
  joinGame p rx ry s = Revert PlayerAlreadyJoined.
Proof. intros Hact. unfold joinGame. by rewrite bind_load, Hact. Qed.

End Calls.

(** ** Transactions *)

Section Transactions.

Lemma on_grid_random r : on_grid (wrap Uint8 r mod 10 + 1).
Proof.
  unfold on_grid. pose proof (Z.mod_pos_bound (wrap Uint8 r) 10 ltac:(lia)). lia.
Qed.

Lemma on_grid_clamp v : on_grid (clamp v).
Proof. unfold on_grid, clamp. lia. Qed.

(** A transaction either fails and leaves the state alone, or commits a new
    on-grid position for its sender, and nothing else. *)
Lemma transact_cases c s :
  (∃ e, transact c s = (Failed e, s)) ∨
  (∃ hx hy cp ev vx vy,
     transact c s = (Success, committed s (sender c) hx hy cp ev) ∧
     extends (fhe s) cp ∧
     decrypt cp hx = Some vx ∧ decrypt cp hy = Some vy ∧
     on_grid vx ∧ on_grid vy).
Proof.
  unfold transact. destruct c as [p rx ry|p ex ey pf]; cbn [dispatch sender].
  - destruct (active (player_at s p)) eqn:Hact.
    + left. rewrite (joinGame_joined _ _ _ _ Hact). eauto.
    + right. destruct (joinGame_fresh p rx ry s Hact)
        as (hx & hy & c & -> & Dx & Dy & X & _).
      eauto 12 using on_grid_random.
  - destruct (active (player_at s p)) eqn:Hact.
    + destruct (decide (proof_covers (self s) p ex pf ∧ proof_covers (self s) p ey pf))
        as [[(Hc & Hu & vx & Hx) (_ & _ & vy & Hy)]|Hn].
      * right. destruct (move_registered p ex ey pf vx vy s Hact Hc Hu Hx Hy)
          as (hx & hy & c & -> & Dx & Dy & X & _).
        eauto 12 using on_grid_clamp.
      * left. rewrite (move_invalid _ _ _ _ _ Hact Hn). eauto.
    + left. rewrite (move_unregistered _ _ _ _ _ Hact). eauto.
Qed.

Lemma player_at_committed_eq s p hx hy c ev :
  player_at (committed s p hx hy c ev) p = {| x := hx; y := hy; active := true |}.
Proof. unfold player_at, committed. cbn. by rewrite lookup_insert_eq. Qed.

Lemma player_at_committed_ne s p q hx hy c ev :
  p ≠ q → player_at (committed s p hx hy c ev) q = player_at s q.
Proof. intros H. unfold player_at, committed. cbn. by rewrite lookup_insert_ne. Qed.

Lemma decrypt_committed s p hx hy c ev h :
  decrypt (fhe (committed s p hx hy c ev)) h = decrypt c h.
Proof. reflexivity. Qed.

Lemma position_Some s a vx vy :
  decrypt (fhe s) (x (player_at s a)) = Some vx →
  decrypt (fhe s) (y (player_at s a)) = Some vy →
  position s a = Some (vx, vy).
Proof. unfold position. by intros -> ->. Qed.

Lemma position_inv s a vx vy :
  position s a = Some (vx, vy) →
  decrypt (fhe s) (x (player_at s a)) = Some vx ∧
  decrypt (fhe s) (y (player_at s a)) = Some vy.
Proof.
  unfold position.
  destruct (decrypt (fhe s) (x (player_at s a))); [|done].
  destruct (decrypt (fhe s) (y (player_at s a))); [|done].
  by intros [= -> ->].
Qed.

Lemma grid_invariant_deployed a : grid_invariant (deployed a).
Proof. intros p. unfold player_at, deployed. cbn. by rewrite lookup_empty. Qed.

Lemma grid_invariant_transact c s :
  grid_invariant s → grid_invariant (transact c s).2.
Proof.
  intros IH.
  destruct (transact_cases c s)
    as [[e ->]|(hx & hy & cp & ev & vx & vy & -> & X & Dx & Dy & Gx & Gy)];
    [done|].
  cbn [snd]. intros a. destruct (decide (sender c = a)) as [<-|Hne].
  - intros _. exists vx, vy. split; [|done].
    apply position_Some; by rewrite player_at_committed_eq, decrypt_committed.
  - rewrite player_at_committed_ne by done. intros Hact.
    destruct (IH a Hact) as (wx & wy & Hpos & ? & ?).
    apply position_inv in Hpos as [Px Py].
    exists wx, wy. split; [|done].
    apply position_Some; rewrite player_at_committed_ne, decrypt_committed by done;
      by eapply decrypt_extends.
Qed.

(** X10. No call looks at a plaintext: whether a transaction succeeds is decided
    by the caller's flag and, for [move], by the binding of the input proof,
    whatever the draws or the submitted values. *)
Lemma receipt_ignores_plaintext s p :
  (∀ rx ry, (transact (CallJoinGame p rx ry) s).1 =
            if active (player_at s p) then Failed PlayerAlreadyJoined else Success) ∧
  (∀ ex ey pf, (transact (CallMove p ex ey pf) s).1 =
               if active (player_at s p) then
                 if decide (proof_covers (self s) p ex pf ∧ proof_covers (self s) p ey pf)
                 then Success else Failed InvalidProof
               else Failed PlayerNotRegistered).
Proof.
  split.
  - intros rx ry. unfold transact. cbn [dispatch].
    destruct (active (player_at s p)) eqn:Hact.
    + by rewrite (joinGame_joined _ _ _ _ Hact).
    + by destruct (joinGame_fresh p rx ry s Hact) as (hx & hy & c & -> & _).
  - intros ex ey pf. unfold transact. cbn [dispatch].
    destruct (active (player_at s p)) eqn:Hact.
    + destruct (decide _) as [[(Hc & Hu & vx & Hx) (_ & _ & vy & Hy)]|Hn].
      * by destruct (move_registered p ex ey pf vx vy s Hact Hc Hu Hx Hy)
          as (hx & hy & c & -> & _).
      * by rewrite (move_invalid _ _ _ _ _ Hact Hn).
    + by rewrite (move_unregistered _ _ _ _ _ Hact).
Qed.

Lemma gridBounds_spec : gridBounds = (1, 10).
Proof. reflexivity. Qed.

End Transactions.

(** ** The properties of the ledger *)

(** C1. Grid-bounds invariant: in every state the ledger can reach by any
    sequence of [joinGame] and [move] transactions, the two ciphertexts stored
    for an active identity decrypt to values in [1, 10].  The bound comes
    from how the stored values are built; no call inspects a plaintext. *)
Theorem grid_bounds_invariant s a :
  reachable s →
  active (player_at s a) = true →
  ∃ vx vy, position s a = Some (vx, vy) ∧ 1 ≤ vx ≤ 10 ∧ 1 ≤ vy ≤ 10.
Proof.
  intros Hreach. revert a.
  change (grid_invariant s).
  induction Hreach as [a|c s _ IH].
  - apply grid_invariant_deployed.
  - by apply grid_invariant_transact.
Qed.

Lemma grid_bounds_invariant_witness :
  reachable alice_moved ∧ active (player_at alice_moved alice) = true ∧
  ∃ vx vy, position alice_moved alice = Some (vx, vy) ∧ 1 ≤ vx ≤ 10 ∧ 1 ≤ vy ≤ 10.
Proof.
  assert (Hr : reachable alice_moved).
  { unfold alice_moved, alice_joined. do 2 apply reachable_transact.
    apply reachable_deployed. }
  assert (Ha : active (player_at alice_moved alice) = true).
  { vm_compute. reflexivity. }
  split; [exact Hr|]. split; [exact Ha|].
  exact (grid_bounds_invariant alice_moved alice Hr Ha).
Defined.

(** C2. Move clamp: the two selects of [_clampCoordinate] compute
    [min(max(v, 1), 10)] for every 8-bit plaintext, and after a [move] by a
    joined identity with the 8-bit plaintexts [(vx, vy)], the stored position,
    which is the one [getPlayerPosition] returns, decrypts to
    [(clamp vx, clamp vy)], whatever happened before in the state. *)
Theorem move_clamp_correct :
  (∀ s h v,
     decrypt (fhe s) h = Some v → 0 ≤ v < 256 →
     ∃ h' s', _clampCoordinate h s = Ok h' s' ∧
              decrypt (fhe s') h' = Some (clamp v)) ∧
  (∀ s p caller ex ey pf vx vy,
     active (player_at s p) = true →
     ip_contract pf = self s → ip_user pf = p →
     ip_values pf !! ex = Some vx → ip_values pf !! ey = Some vy →
     0 ≤ vx < 256 → 0 ≤ vy < 256 →
     ∃ s' hx hy,
       move p ex ey pf s = Ok tt s' ∧
       getPlayerPosition caller p s' = Ok (hx, hy) s' ∧
       decrypt (fhe s') hx = Some (clamp vx) ∧
       decrypt (fhe s') hy = Some (clamp vy) ∧
       position s' p = Some (clamp vx, clamp vy)).
Proof.
  split.
  - intros s h v Hh Hv.
    destruct (clampCoordinate_spec h v s Hh Hv) as (h' & c & E & D & _).
    by exists h', (with_fhe c s).
  - intros s p caller ex ey pf vx vy Hact Hc Hu Hx Hy Bx By.
    destruct (move_registered p ex ey pf vx vy s Hact Hc Hu Hx Hy)
      as (hx & hy & c & E & Dx & Dy & _).
    rewrite (wrap_small Uint8 vx) in Dx by (cbn; lia).
    rewrite (wrap_small Uint8 vy) in Dy by (cbn; lia).
    exists (committed s p hx hy c (PlayerMoved p)), hx, hy.
    split; [done|]. split.
    { unfold getPlayerPosition. by rewrite bind_load, player_at_committed_eq. }
    rewrite !decrypt_committed. split; [done|]. split; [done|].
    apply position_Some; by rewrite player_at_committed_eq, decrypt_committed.
Qed.

Lemma move_clamp_correct_witness :
  (∃ s', move alice 0%nat 1%nat (encrypted_input alice [0; 42]) alice_joined = Ok tt s' ∧
         position s' alice = Some (1, 10)) ∧
  (∃ s', move alice 0%nat 1%nat (encrypted_input alice [7; 8]) alice_moved = Ok tt s' ∧
         position s' alice = Some (7, 8)).
Proof.
  split.
  - destruct (proj2 move_clamp_correct alice_joined alice bob 0%nat 1%nat
                (encrypted_input alice [0; 42]) 0 42)
      as (s' & hx & hy & E & _ & _ & _ & P);
      [vm_compute; reflexivity|reflexivity|reflexivity|reflexivity|reflexivity|lia|lia|].
    exists s'. split; [exact E|exact P].
  - destruct (proj2 move_clamp_correct alice_moved alice bob 0%nat 1%nat
                (encrypted_input alice [7; 8]) 7 8)
      as (s' & hx & hy & E & _ & _ & _ & P);
      [vm_compute; reflexivity|reflexivity|reflexivity|reflexivity|reflexivity|lia|lia|].
    exists s'. split; [exact E|exact P].
Defined.

(** C3. Join range: for each of the 256 values of either draw, [joinGame]
    stores coordinates that decrypt to [(r mod 10) + 1], a value between 1
    and 10. *)
Theorem join_random_range s p rx ry :
  0 ≤ rx < 256 → 0 ≤ ry < 256 →
  active (player_at s p) = false →
  ∃ s', joinGame p rx ry s = Ok tt s' ∧
        position s' p = Some (rx mod 10 + 1, ry mod 10 + 1) ∧
        1 ≤ rx mod 10 + 1 ≤ 10 ∧ 1 ≤ ry mod 10 + 1 ≤ 10.
Proof.
  intros Bx By Hact.
  destruct (joinGame_fresh p rx ry s Hact) as (hx & hy & c & E & Dx & Dy & _).
  pose proof (on_grid_random rx) as Gx. pose proof (on_grid_random ry) as Gy.
  rewrite (wrap_small Uint8 rx) in Dx, Gx by (cbn; lia).
  rewrite (wrap_small Uint8 ry) in Dy, Gy by (cbn; lia).
  exists (committed s p hx hy c (PlayerJoined p)).
  split; [done|]. split; [|done].
  apply position_Some; by rewrite player_at_committed_eq, decrypt_committed.
Qed.

Lemma join_random_range_witness :
  ∃ s', joinGame alice 255 13 (deployed game) = Ok tt s' ∧
        position s' alice = Some (6, 4) ∧ 1 ≤ 6 ≤ 10 ∧ 1 ≤ 4 ≤ 10.
Proof.
  apply (join_random_range (deployed game) alice 255 13); [lia|lia|reflexivity].
Defined.

(** C4, as stated: the join path would run the two-select clamp on its raw
    candidate, as the move path does.  It does not: for the draw 0 on a fresh
    ledger, [_randomCoordinate] and its clamped reading leave different
    coprocessor states, and no select is ever requested by [joinGame]. *)
Lemma join_path_not_clamped :
  _randomCoordinate 0 (deployed game) ≠ clamped_randomCoordinate 0 (deployed game) ∧
  ∃ s', joinGame alice 0 0 (deployed game) = Ok tt s' ∧
        (KSelect ∉ oplog (fhe s')) ∧
        oplog (fhe s') =
          [KRand; KCast; KRem; KTrivialEncrypt; KAdd; KCast;
           KRand; KCast; KRem; KTrivialEncrypt; KAdd; KCast].
Proof.
  split.
  - vm_compute. discriminate.
  - eexists. split; [vm_compute; reflexivity|]. cbn [fhe oplog]. split; [|done].
    rewrite list_elem_of_In. cbn. intuition discriminate.
Qed.

(** C4, amended: [_randomCoordinate] requests a draw, a widening cast, a
    remainder, a constant, an addition and a narrowing cast, and no comparison
    or select.  For every 8-bit draw its result decrypts to [(r mod 10) + 1];
    running the clamp of the move path on that result would leave the same
    plaintext, the raw candidate being between 1 and 10 already. *)
Theorem join_path_agrees_with_clamp r s :
  0 ≤ r < 256 →
  ∃ h c h' c',
    _randomCoordinate r s = Ok h (with_fhe c s) ∧
    oplog c = oplog (fhe s) ++ [KRand; KCast; KRem; KTrivialEncrypt; KAdd; KCast] ∧
    decrypt c h = Some (r mod 10 + 1) ∧
    clamped_randomCoordinate r s = Ok h' (with_fhe c' s) ∧
    oplog c' = oplog c ++
      [KTrivialEncrypt; KTrivialEncrypt; KLt; KSelect; KGt; KSelect] ∧
    decrypt c' h' = Some (clamp (r mod 10 + 1)) ∧
    clamp (r mod 10 + 1) = r mod 10 + 1.
Proof.
  intros Hr.
  destruct (randomCoordinate_spec r s) as (h & c & E & D & _ & _ & L).
  rewrite (wrap_small Uint8 r) in D by (cbn; lia).
  pose proof (Z.mod_pos_bound r 10 ltac:(lia)) as Hm.
  destruct (clampCoordinate_spec h (r mod 10 + 1) (with_fhe c s) D)
    as (h' & c' & E' & D' & _ & _ & L'); [lia|].
  cbn [fhe with_fhe] in L'. rewrite with_fhe_with_fhe in E'.
  exists h, c, h', c'. repeat split; try done.
  - unfold clamped_randomCoordinate. by rewrite (bind_ok _ _ _ _ _ E).
  - unfold clamp. lia.
Qed.

Lemma join_path_agrees_with_clamp_witness :
  ∃ h c h' c',
    _randomCoordinate 255 (deployed game) = Ok h (with_fhe c (deployed game)) ∧
    oplog c = [KRand; KCast; KRem; KTrivialEncrypt; KAdd; KCast] ∧
    decrypt c h = Some 6 ∧
    clamped_randomCoordinate 255 (deployed game) = Ok h' (with_fhe c' (deployed game)) ∧
    oplog c' = oplog c ++
      [KTrivialEncrypt; KTrivialEncrypt; KLt; KSelect; KGt; KSelect] ∧
    decrypt c' h' = Some 6 ∧
    clamp 6 = 6.
Proof.
  apply (join_path_agrees_with_clamp 255 (deployed game)). lia.
Defined.

(** C5. Double join: when the caller's record is already active, [joinGame]
    fails with [PlayerAlreadyJoined], and the transaction leaves the whole
    ledger state (records, flags, access grants, events) as it was. *)
Theorem double_join_rejected s p rx ry :
  active (player_at s p) = true →
  joinGame p rx ry s = Revert PlayerAlreadyJoined ∧
  transact (CallJoinGame p rx ry) s = (Failed PlayerAlreadyJoined, s).
Proof.
  intros Hact. pose proof (joinGame_joined p rx ry s Hact) as E.
  split; [done|]. unfold transact. cbn [dispatch]. by rewrite E.
Qed.

Lemma double_join_rejected_witness :
  active (player_at alice_joined alice) = true ∧
  joinGame alice 3 4 alice_joined = Revert PlayerAlreadyJoined ∧
  transact (CallJoinGame alice 3 4) alice_joined = (Failed PlayerAlreadyJoined, alice_joined).
Proof.
  assert (Ha : active (player_at alice_joined alice) = true) by (vm_compute; reflexivity).
  split; [exact Ha|]. exact (double_join_rejected alice_joined alice 3 4 Ha).
Defined.

(** C6. Not registered: for an identity whose record is not active,
    [getPlayerPosition] and [move] fail with [PlayerNotRegistered] and the
    [move] transaction changes nothing; for an active identity
    [getPlayerPosition] returns the stored handles and [move] never fails
    with that error. *)
Theorem not_registered_rejected s p caller ex ey pf :
  (active (player_at s p) = false →
     getPlayerPosition caller p s = Revert PlayerNotRegistered ∧
     move p ex ey pf s = Revert PlayerNotRegistered ∧
     transact (CallMove p ex ey pf) s = (Failed PlayerNotRegistered, s)) ∧
  (active (player_at s p) = true →
     getPlayerPosition caller p s = Ok (x (player_at s p), y (player_at s p)) s ∧
     move p ex ey pf s ≠ Revert PlayerNotRegistered).
Proof.
  split; intros Hact.
  - pose proof (move_unregistered p ex ey pf s Hact) as E.
    repeat split; [|done|].
    + unfold getPlayerPosition. by rewrite bind_load, Hact.
    + unfold transact. cbn [dispatch]. by rewrite E.
  - split.
    + unfold getPlayerPosition. by rewrite bind_load, Hact.
    + destruct (decide (proof_covers (self s) p ex pf ∧ proof_covers (self s) p ey pf))
        as [[(Hc & Hu & vx & Hx) (_ & _ & vy & Hy)]|Hn].
      * destruct (move_registered p ex ey pf vx vy s Hact Hc Hu Hx Hy)
          as (hx & hy & c & -> & _). done.
      * by rewrite (move_invalid _ _ _ _ _ Hact Hn).
Qed.

Lemma not_registered_rejected_witness :
  (getPlayerPosition alice bob alice_joined = Revert PlayerNotRegistered ∧
   move bob 0%nat 1%nat (encrypted_input bob [7; 8]) alice_joined
     = Revert PlayerNotRegistered ∧
   transact (CallMove bob 0%nat 1%nat (encrypted_input bob [7; 8])) alice_joined
     = (Failed PlayerNotRegistered, alice_joined)) ∧
  (getPlayerPosition bob alice alice_joined = Ok (6%nat, 12%nat) alice_joined ∧
   move alice 0%nat 1%nat (encrypted_input alice [7; 8]) alice_joined
     ≠ Revert PlayerNotRegistered).
Proof.
  split.
  - apply (proj1 (not_registered_rejected alice_joined bob alice 0%nat 1%nat
                    (encrypted_input bob [7; 8]))).
    vm_compute. reflexivity.
  - apply (proj2 (not_registered_rejected alice_joined alice bob 0%nat 1%nat
                    (encrypted_input alice [7; 8]))).
    vm_compute. reflexivity.
Defined.

(** C7. Permissionless read: what [getPlayerPosition] answers is decided by
    the queried player's record alone.  Two callers get the same result in
    the same state; states that agree on the record give the same answer; and
    an active record is returned to every caller, the queried player or not. *)
Theorem getPlayerPosition_permissionless s s' caller caller' player :
  getPlayerPosition caller player s = getPlayerPosition caller' player s ∧
  (player_at s player = player_at s' player →
     answer (getPlayerPosition caller player s)
     = answer (getPlayerPosition caller' player s')) ∧
  (active (player_at s player) = true →
     getPlayerPosition caller player s
     = Ok (x (player_at s player), y (player_at s player)) s).
Proof.
  split; [reflexivity|]. split.
  - intros E. unfold getPlayerPosition. rewrite !bind_load, E.
    by destruct (active (player_at s' player)).
  - intros Hact. unfold getPlayerPosition. by rewrite bind_load, Hact.
Qed.

Lemma getPlayerPosition_permissionless_witness :
  getPlayerPosition bob alice alice_joined = getPlayerPosition alice alice alice_joined ∧
  answer (getPlayerPosition bob alice alice_joined)
  = answer (getPlayerPosition game alice
              (transact (CallJoinGame bob 1 2) alice_joined).2) ∧
  getPlayerPosition bob alice alice_joined = Ok (6%nat, 12%nat) alice_joined.
Proof.
  pose proof (getPlayerPosition_permissionless alice_joined
                (transact (CallJoinGame bob 1 2) alice_joined).2 bob alice alice)
    as (H1 & _ & H3).
  pose proof (getPlayerPosition_permissionless alice_joined
                (transact (CallJoinGame bob 1 2) alice_joined).2 bob game alice)
    as (_ & H2 & _).
  split; [exact H1|]. split.
  - apply H2. vm_compute. reflexivity.
  - apply H3. vm_compute. reflexivity.
Defined.

(** C9. Frame: a [joinGame] or [move] transaction sent by [p] leaves the
    record of every other identity [q] (both handles and the flag) as it
    was. *)
Theorem other_records_unchanged s p q :
  p ≠ q →
  (∀ rx ry,
     _players (transact (CallJoinGame p rx ry) s).2 !! q = _players s !! q ∧
     player_at (transact (CallJoinGame p rx ry) s).2 q = player_at s q) ∧
  (∀ ex ey pf,
     _players (transact (CallMove p ex ey pf) s).2 !! q = _players s !! q ∧
     player_at (transact (CallMove p ex ey pf) s).2 q = player_at s q).
Proof.
  intros Hne.
  assert (H : ∀ c, sender c = p →
            _players (transact c s).2 !! q = _players s !! q ∧
            player_at (transact c s).2 q = player_at s q).
  { intros c Hs.
    destruct (transact_cases c s) as [[e ->]|(hx & hy & cp & ev & vx & vy & -> & _)];
      [done|].
    rewrite Hs. cbn [snd]. split.
    - unfold committed. cbn [_players]. by rewrite lookup_insert_ne.
    - by apply player_at_committed_ne. }
  split; intros; by apply H.
Qed.

Lemma other_records_unchanged_witness :
  alice ≠ bob ∧
  player_at (transact (CallMove bob 0%nat 1%nat (encrypted_input bob [3; 200]))
               (transact (CallJoinGame bob 1 2) alice_joined).2).2 alice
  = player_at alice_joined alice.
Proof.
  assert (Hne : bob ≠ alice) by discriminate.
  split; [discriminate|].
  pose proof (other_records_unchanged alice_joined bob alice Hne) as [Hj _].
  pose proof (other_records_unchanged
                (transact (CallJoinGame bob 1 2) alice_joined).2 bob alice Hne)
    as [_ Hm].
  destruct (Hj 1 2) as [_ <-].
  exact (proj2 (Hm 0%nat 1%nat (encrypted_input bob [3; 200]))).
Defined.

(** ** Histories *)

Section Histories.

Lemma run_cons c cs s :
  run (c :: cs) s =
  ((transact c s).1 :: (run cs (transact c s).2).1, (run cs (transact c s).2).2).
Proof.
  cbn [run]. destruct (transact c s) as [r s1]. cbn [fst snd].
  by destruct (run cs s1).
Qed.

(** The flag of [p] is set by a successful [joinGame] of [p] and by nothing
    else, and is never cleared. *)
Lemma transact_active c s p :
  active (player_at (transact c s).2 p) = true ↔
  active (player_at s p) = true ∨
  ((∃ rx ry, c = CallJoinGame p rx ry) ∧ (transact c s).1 = Success).
Proof.
  destruct (transact_cases c s) as [[e E]|(hx & hy & cp & ev & vx & vy & E & _)].
  - rewrite E. cbn [fst snd]. split; [by left|]. by intros [?|[_ ?]].
  - destruct (decide (sender c = p)) as [Hs|Hs].
    + rewrite E. cbn [fst snd]. rewrite Hs, player_at_committed_eq. cbn [active].
      split; [intros _|done].
      destruct (active (player_at s p)) eqn:Hact; [by left|right].
      split; [|done].
      destruct c as [a rx ry|a ex ey pf]; cbn [sender] in Hs; subst a; [eauto|].
      unfold transact in E. cbn [dispatch] in E.
      by rewrite (move_unregistered _ _ _ _ _ Hact) in E.
    + rewrite E. cbn [fst snd]. rewrite player_at_committed_ne by done.
      split; [by left|]. intros [?|[(rx & ry & ->) _]]; [done|]. by destruct Hs.
Qed.

Lemma run_active cs s p :
  active (player_at (run cs s).2 p) = true ↔
  active (player_at s p) = true ∨
  ∃ i rx ry, cs !! i = Some (CallJoinGame p rx ry) ∧ (run cs s).1 !! i = Some Success.
Proof.
  revert s. induction cs as [|c cs IH]; intros s.
  - cbn. split; [by left|]. by intros [?|(i & rx & ry & ? & _)].
  - rewrite run_cons. cbn [fst snd]. rewrite IH, transact_active. split.
    + intros [[?|[(rx & ry & ->) Hr]]|(i & rx & ry & Hc & Hr)].
      * by left.
      * right. exists O, rx, ry. cbn. by rewrite Hr.
      * right. by exists (S i), rx, ry.
    + intros [?|(i & rx & ry & Hc & Hr)]; [by left; left|].
      destruct i as [|i]; cbn in Hc, Hr.
      * left. right. injection Hc as ->. injection Hr as Hr. eauto.
      * right. eauto.
Qed.

End Histories.

(** C10. [hasJoined] is total and reads the flag: for every identity it
    returns a boolean and leaves the state untouched; on a slot never written
    it answers [false] through the default record, where [getPlayerPosition]
    fails; and after any history of transactions on a freshly deployed ledger
    it answers [true] exactly when some [joinGame] of that identity has
    succeeded earlier in the history. *)
Theorem hasJoined_total_and_exact p :
  (∀ s, hasJoined p s = Ok (active (player_at s p)) s) ∧
  (∀ s caller, _players s !! p = None →
     hasJoined p s = Ok false s ∧
     getPlayerPosition caller p s = Revert PlayerNotRegistered) ∧
  (∀ a cs,
     hasJoined p (run cs (deployed a)).2 = Ok true (run cs (deployed a)).2 ↔
     ∃ i rx ry, cs !! i = Some (CallJoinGame p rx ry) ∧
                (run cs (deployed a)).1 !! i = Some Success).
Proof.
  split; [done|]. split.
  - intros s caller Hnone.
    assert (E : player_at s p = zero_position) by (unfold player_at; by rewrite Hnone).
    unfold hasJoined, getPlayerPosition. by rewrite !bind_load, E.
  - intros a cs.
    change (hasJoined p (run cs (deployed a)).2)
      with (Ok (active (player_at (run cs (deployed a)).2 p)) (run cs (deployed a)).2).
    split.
    + intros [= H]. apply run_active in H as [H|H]; [|done].
      unfold player_at, deployed in H. cbn in H. by rewrite lookup_empty in H.
    + intros H. f_equal. apply run_active. by right.
Qed.

Lemma hasJoined_total_and_exact_witness :
  hasJoined bob (deployed game) = Ok false (deployed game) ∧
  getPlayerPosition alice bob (deployed game) = Revert PlayerNotRegistered ∧
  hasJoined alice
    (run [CallJoinGame bob 1 2; CallJoinGame alice 255 13; CallJoinGame alice 0 0]
       (deployed game)).2
  = Ok true
      (run [CallJoinGame bob 1 2; CallJoinGame alice 255 13; CallJoinGame alice 0 0]
         (deployed game)).2.
Proof.
  destruct (hasJoined_total_and_exact bob) as (_ & H2 & _).
  destruct (hasJoined_total_and_exact alice) as (_ & _ & H3).
  destruct (H2 (deployed game) alice) as [Ha Hb]; [reflexivity|].
  split; [exact Ha|]. split; [exact Hb|].
  apply H3. exists 1%nat, 255, 13. split; [reflexivity|]. vm_compute. reflexivity.
Defined.

(** ** The decryption request *)

Section Signature.

Import GridGameApp.

Lemma not_hex_x : is_hex_digit "x" = false.
Proof. reflexivity. Qed.

(** No [0x] occurs in a string of hexadecimal digits, so [replace] leaves it. *)
Lemma replace_all_hex s : all_hex s = true → replace "0x" EmptyString s = s.
Proof.
  induction s as [|a s IH]; [done|].
  cbn [all_hex]. intros [Ha Hs]%andb_prop.
  cbn [replace]. rewrite (IH Hs).
  destruct (starts_with "0x" (String a s)) eqn:E; [|done].
  cbn [starts_with] in E. apply andb_prop in E as [_ E].
  destruct s as [|b s]; [done|].
  apply andb_prop in E as [E _]. apply Ascii.eqb_eq in E as <-.
  cbn [all_hex] in Hs. by rewrite not_hex_x in Hs.
Qed.

(** On a signature, replacing the first [0x] strips the prefix, if present. *)
Lemma replace_0x_signature s :
  hex_string s = true → replace "0x" EmptyString s = strip_0x_prefix s.
Proof.
  unfold hex_string. intros H.
  destruct (starts_with "0x" s) eqn:E.
  - destruct s as [|a [|b s]]; cbn [starts_with] in E;
      rewrite ?andb_false_r in E; try done.
    apply andb_prop in E as [<-%Ascii.eqb_eq [<-%Ascii.eqb_eq _]%andb_prop].
    reflexivity.
  - assert (Hs : strip_0x_prefix s = s).
    { destruct s as [|a [|b s]]; [done| |].
      - by destruct a as [[] [] [] [] [] [] [] []].
      - cbn [starts_with] in E. unfold strip_0x_prefix.
        destruct (Ascii.eqb_spec "0" a) as [<-|];
          [|by destruct a as [[] [] [] [] [] [] [] []]].
        destruct (Ascii.eqb_spec "x" b) as [<-|]; [done|].
        by destruct b as [[] [] [] [] [] [] [] []]. }
    rewrite Hs in *. by apply replace_all_hex.
Qed.

End Signature.

Section DecryptRequest.

Import GridGameApp.

(** C8. Decryption request: when the handler has its context, the signer is
    there and signs, the calls it makes are, in order: the generation of a
    key pair; the authorization message over that public key, the contract
    address as scope, the current time in whole seconds and ten days; the
    signature of that message; and one relayer request carrying the two
    (handle, contract) pairs, both keys, the signature without its [0x]
    prefix, the same scope, the requester and the same start and duration. *)
Theorem decrypt_request_construction {Domain Types Message : Type}
    (st : Component Domain Types Message)
    inst addr hx hy signer keypair eip712 signature :
  instance st = Some inst →
  truthy (address st) = Some addr →
  truthy (contractHandles_x st) = Some hx →
  truthy (contractHandles_y st) = Some hy →
  signerPromise st = Some (inr (Some signer)) →
  let scope := [CONTRACT_ADDRESS] in
  let start := pretty (now st `div` 1000) in
  generateKeypair inst = inr keypair →
  createEIP712 inst (publicKey keypair) scope start "10" = inr eip712 →
  signTypedData signer (domain eip712)
    (types_UserDecryptRequestVerification eip712) (message eip712)
  = inr signature →
  hex_string signature = true →
  (handleDecrypt st).1 =
  [ CallGenerateKeypair;
    CallCreateEIP712 (publicKey keypair) scope start "10";
    CallSignTypedData (domain eip712)
      (types_UserDecryptRequestVerification eip712) (message eip712);
    CallUserDecrypt
      {| req_handleContractPairs :=
           [ {| handle := hx; contractAddress := CONTRACT_ADDRESS |};
             {| handle := hy; contractAddress := CONTRACT_ADDRESS |} ];
         req_privateKey := privateKey keypair;
         req_publicKey := publicKey keypair;
         req_signature := strip_0x_prefix signature;
         req_contractAddresses := scope;
         req_userAddress := addr;
         req_startTimeStamp := start;
         req_durationDays := "10" |} ].
Proof.
  intros Hi Ha Hx Hy Hp scope start Hk He Hs Hh.
  unfold handleDecrypt. rewrite Hi, Ha, Hx, Hy, Hp.
  change (negb isContractConfigured) with false. cbv iota.
  fold scope. fold start.
  unfold call. rewrite Hk. cbn [and_then]. rewrite He. cbn [and_then pure].
  rewrite Hs. cbn [and_then].
  rewrite (replace_0x_signature signature Hh).
  by destruct (userDecrypt inst _) as [[]|].
Qed.

Lemma decrypt_request_construction_witness :
  (handleDecrypt session).1 =
  [ CallGenerateKeypair;
    CallCreateEIP712 "04pub" [CONTRACT_ADDRESS] "1760000000" "10";
    CallSignTypedData "Decryption" "UserDecryptRequestVerification"
      "04pub|1760000000|10";
    CallUserDecrypt
      {| req_handleContractPairs :=
           [ {| handle := "0x01"; contractAddress := CONTRACT_ADDRESS |};
             {| handle := "0x02"; contractAddress := CONTRACT_ADDRESS |} ];
         req_privateKey := "priv";
         req_publicKey := "04pub";
         req_signature := "1b2c3d";
         req_contractAddresses := [CONTRACT_ADDRESS];
         req_userAddress := "0xA11ce";
         req_startTimeStamp := "1760000000";
         req_durationDays := "10" |} ].
Proof.
  apply (decrypt_request_construction session session_instance
           "0xA11ce" "0x01" "0x02" session_signer
           {| publicKey := "04pub"; privateKey := "priv" |}
           {| domain := "Decryption";
              types_UserDecryptRequestVerification := "UserDecryptRequestVerification";
              message := "04pub|1760000000|10" |}
           "0x1b2c3d");
    reflexivity.
Defined.

End DecryptRequest.

(** * More of the ledger *)

(** ** Fresh handles *)

Section Freshness.

Lemma emit_fresh k t v c h c' :
  emit k t v c = (h, c') → decrypt c h = None.
Proof.
  intros [= <- _]. unfold decrypt, cell.
  by rewrite (lookup_ge_None_2 (cts c) (length (cts c))).
Qed.

Lemma decrypt_None_extends c c' h :
  extends c c' → decrypt c' h = None → decrypt c h = None.
Proof.
  intros X N. destruct (decrypt c h) as [v|] eqn:E; [|done].
  by rewrite (decrypt_extends _ _ _ _ X E) in N.
Qed.

Lemma op_result_fresh f s h s' :
  (∀ c h0 c0, f c = (h0, c0) → decrypt c h0 = None) →
  op f s = Ok h s' → decrypt (fhe s) h = None.
Proof.
  intros Hf. unfold op. destruct (f (fhe s)) as [h0 c0] eqn:E.
  intros [= <- _]. by eapply Hf.
Qed.

(** The handle [_randomCoordinate] returns names no ciphertext before the
    call. *)
Lemma randomCoordinate_result_fresh r s h s' :
  _randomCoordinate r s = Ok h s' → decrypt (fhe s) h = None.
Proof.
  unfold _randomCoordinate.
  fhe_step h1 c1. fhe_step h2 c2. fhe_step h3 c3. fhe_step h4 c4. fhe_step h5 c5.
  intros E. apply op_result_fresh in E; [|intros ???; apply emit_fresh].
  cbn [fhe with_fhe] in E. eapply decrypt_None_extends; [|exact E].
  by repeat (etrans; [eassumption|]).
Qed.

Lemma clampCoordinate_result_fresh h0 s h s' :
  _clampCoordinate h0 s = Ok h s' → decrypt (fhe s) h = None.
Proof.
  unfold _clampCoordinate.
  fhe_step h1 c1. fhe_step h2 c2. fhe_step h3 c3. fhe_step h4 c4. fhe_step h5 c5.
  intros E. apply op_result_fresh in E; [|intros ???; apply emit_fresh].
  cbn [fhe with_fhe] in E. eapply decrypt_None_extends; [|exact E].
  by repeat (etrans; [eassumption|]).
Qed.

Lemma fresh_ne c h h' v :
  decrypt c h = Some v → decrypt c h' = None → h ≠ h'.
Proof. intros E N ->. by rewrite E in N. Qed.

End Freshness.

(** ** What a transaction commits, in full *)

Section Commit.

Lemma joinGame_commit p rx ry s :
  active (player_at s p) = false →
  ∃ hx hy c,
    joinGame p rx ry s = Ok tt (committed s p hx hy c (PlayerJoined p)) ∧
    extends (fhe s) c ∧ acl c = acl (fhe s) ∧
    decrypt (fhe s) hx = None ∧ decrypt (fhe s) hy = None ∧
    is_Some (decrypt c hx) ∧ is_Some (decrypt c hy) ∧ hx ≠ hy.
Proof.
  intros Hact. unfold joinGame. rewrite bind_load, Hact. cbv iota.
  destruct (randomCoordinate_spec rx s) as (hx & c1 & E1 & Dx & X1 & A1 & _).
  destruct (randomCoordinate_spec ry (with_fhe c1 s)) as (hy & c2 & E2 & Dy & X2 & A2 & _).
  pose proof (randomCoordinate_result_fresh _ _ _ _ E1) as Fx.
  pose proof (randomCoordinate_result_fresh _ _ _ _ E2) as Fy.
  cbn [fhe with_fhe] in *. rewrite with_fhe_with_fhe in E2.
  exists hx, hy, c2.
  assert (E : _randomPosition rx ry s = Ok (hx, hy) (with_fhe c2 s)).
  { unfold _randomPosition. by rewrite (bind_ok _ _ _ _ _ E1), (bind_ok _ _ _ _ _ E2). }
  rewrite (bind_ok _ _ _ _ _ E). cbn [fst snd].
  rewrite !bind_store, !write_write.
  rewrite (bind_ok _ _ _ _ _ (grantAccess_spec _ _ _)).
  rewrite player_at_write_eq.
  split; [reflexivity|]. split; [by etrans|]. split; [congruence|].
  split; [done|]. split; [by eapply decrypt_None_extends|].
  split; [rewrite (decrypt_extends _ _ _ _ X2 Dx); eauto|].
  split; [eauto|]. by eapply fresh_ne.
Qed.

Lemma move_commit p ex ey pf s :
  active (player_at s p) = true →
  proof_covers (self s) p ex pf → proof_covers (self s) p ey pf →
  ∃ hx hy c,
    move p ex ey pf s = Ok tt (committed s p hx hy c (PlayerMoved p)) ∧
    extends (fhe s) c ∧ acl c = acl (fhe s) ∧
    decrypt (fhe s) hx = None ∧ decrypt (fhe s) hy = None ∧
    is_Some (decrypt c hx) ∧ is_Some (decrypt c hy) ∧ hx ≠ hy.
Proof.
  intros Hact (Hc & Hu & vx & Hx) (_ & _ & vy & Hy).
  unfold move. rewrite bind_load, Hact. cbv iota. cbn [negb].
  destruct (fromExternal_valid p ex pf vx s Hc Hu Hx)
    as (i1 & c1 & E1 & D1 & X1 & A1 & _).
  rewrite (bind_ok _ _ _ _ _ E1).
  destruct (clampCoordinate_spec i1 (wrap Uint8 vx) (with_fhe c1 s) D1)
    as (hx & c2 & E2 & D2 & X2 & A2 & _); [apply (wrap_range Uint8)|].
  pose proof (clampCoordinate_result_fresh _ _ _ _ E2) as Fx.
  rewrite (bind_ok _ _ _ _ _ E2). cbn [fhe with_fhe] in *.
  rewrite with_fhe_with_fhe.
  destruct (fromExternal_valid p ey pf vy (with_fhe c2 s) Hc Hu Hy)
    as (i2 & c3 & E3 & D3 & X3 & A3 & _).
  rewrite (bind_ok _ _ _ _ _ E3). cbn [fhe with_fhe] in *.
  rewrite with_fhe_with_fhe.
  destruct (clampCoordinate_spec i2 (wrap Uint8 vy) (with_fhe c3 s) D3)
    as (hy & c4 & E4 & D4 & X4 & A4 & _); [apply (wrap_range Uint8)|].
  pose proof (clampCoordinate_result_fresh _ _ _ _ E4) as Fy.
  rewrite (bind_ok _ _ _ _ _ E4). cbn [fhe with_fhe] in *.
  rewrite with_fhe_with_fhe.
  exists hx, hy, c4.
  assert (X02 : extends (fhe s) c2) by (etrans; [exact X1|exact X2]).
  assert (X24 : extends c2 c4) by (etrans; [exact X3|exact X4]).
  split.
  { rewrite !bind_store, !write_write.
    rewrite (bind_ok _ _ _ _ _ (grantAccess_spec _ _ _)).
    rewrite player_at_write_eq, player_at_with_fhe.
    unfold emit_event, committed, log, write, compose, set_y, set_x.
    rewrite player_at_with_fhe. cbn [x y active self _players fhe events with_fhe].
    by rewrite Hact. }
  split; [etrans; [exact X02|exact X24]|]. split; [congruence|].
  split; [eapply decrypt_None_extends; [exact X1|exact Fx]|].
  split; [eapply decrypt_None_extends; [|exact Fy]; etrans; [exact X02|exact X3]|].
  split; [rewrite (decrypt_extends _ _ _ _ X24 D2); eauto|].
  split; [eauto|].
  eapply fresh_ne; [exact D2|]. eapply decrypt_None_extends; [exact X3|exact Fy].
Qed.

(** A transaction either fails and leaves the state alone, or commits two
    fresh, distinct handles for its sender, keeps every ciphertext and every
    earlier grant, and emits the event of the call. *)
Lemma transact_commit c s :
  (∃ e, transact c s = (Failed e, s)) ∨
  (∃ hx hy cp,
     transact c s = (Success, committed s (sender c) hx hy cp (event_of c)) ∧
     extends (fhe s) cp ∧ acl cp = acl (fhe s) ∧
     decrypt (fhe s) hx = None ∧ decrypt (fhe s) hy = None ∧
     is_Some (decrypt cp hx) ∧ is_Some (decrypt cp hy) ∧ hx ≠ hy).
Proof.
  unfold transact. destruct c as [p rx ry|p ex ey pf]; cbn [dispatch sender event_of].
  - destruct (active (player_at s p)) eqn:Hact.
    + left. rewrite (joinGame_joined _ _ _ _ Hact). eauto.
    + right. destruct (joinGame_commit p rx ry s Hact) as (hx & hy & c & -> & H).
      eauto.
  - destruct (active (player_at s p)) eqn:Hact.
    + destruct (decide (proof_covers (self s) p ex pf ∧ proof_covers (self s) p ey pf))
        as [[H1 H2]|Hn].
      * right. destruct (move_commit p ex ey pf s Hact H1 H2) as (hx & hy & c & -> & H).
        eauto.
      * left. rewrite (move_invalid _ _ _ _ _ Hact Hn). eauto.
    + left. rewrite (move_unregistered _ _ _ _ _ Hact). eauto.
Qed.

End Commit.

(** ** Access grants *)

Section Grants.

Lemma granted_to_committed s p hx hy c ev h a :
  granted_to (committed s p hx hy c ev) h a ↔
  (h = hx ∨ h = hy) ∧ (a = p ∨ a = self s) ∨ (h, a) ∈ acl c.
Proof.
  unfold granted_to, committed, granted, FHE.allow. cbn [fhe acl].
  rewrite !elem_of_union, !elem_of_singleton. split.
  - intros [[= -> ->]|[[= -> ->]|[[= -> ->]|[[= -> ->]|?]]]]; eauto.
  - intros [[[->| ->] [->| ->]]|?]; eauto 6.
Qed.

Lemma self_committed s p hx hy c ev : self (committed s p hx hy c ev) = self s.
Proof. reflexivity. Qed.

Lemma access_invariant_deployed a : access_invariant (deployed a).
Proof.
  assert (H : ∀ p, active (player_at (deployed a) p) = false).
  { intros p. unfold player_at, deployed. cbn. by rewrite lookup_empty. }
  split.
  - intros p Hp. by rewrite H in Hp.
  - intros h b Hg. unfold granted_to, deployed in Hg. cbn in Hg. set_solver.
  - intros p Hp. by rewrite H in Hp.
  - intros p b Hp. by rewrite H in Hp.
Qed.

Lemma access_invariant_transact c s :
  access_invariant s → access_invariant (transact c s).2.
Proof.
  intros [Ha Hg Ho He].
  destruct (transact_commit c s)
    as [[e ->]|(hx & hy & cp & -> & X & A & Fx & Fy & [vx Dx] & [vy Dy] & _)];
    [done|].
  cbn [snd]. set (p := sender c).
  assert (Hold : ∀ h, is_Some (decrypt (fhe s) h) → h ≠ hx ∧ h ≠ hy).
  { intros h [v Hv]. split; intros ->; congruence. }
  assert (Hkeep : ∀ h, is_Some (decrypt (fhe s) h) → is_Some (decrypt cp h)).
  { intros h [v Hv]. exists v. by eapply decrypt_extends. }
  split.
  - intros q. destruct (decide (p = q)) as [<-|Hne].
    + rewrite player_at_committed_eq, !decrypt_committed. cbn [x y]. eauto.
    + rewrite player_at_committed_ne, !decrypt_committed by done.
      intros Hq. destruct (Ha q Hq). eauto.
  - intros h b. rewrite granted_to_committed, decrypt_committed, A.
    intros [[[->| ->] _]|Hb]; eauto.
  - intros q. destruct (decide (p = q)) as [<-|Hne].
    + rewrite player_at_committed_eq, self_committed. cbn [x y].
      rewrite !granted_to_committed. intros _. repeat split; left; split; auto.
    + rewrite player_at_committed_ne, self_committed by done.
      rewrite !granted_to_committed, A. intros Hq.
      unfold granted_to in Ho. destruct (Ho q Hq) as (? & ? & ? & ?).
      repeat split; right; assumption.
  - intros q b. destruct (decide (p = q)) as [<-|Hne].
    + rewrite player_at_committed_eq, self_committed. cbn [x y].
      rewrite !granted_to_committed, A. intros _.
      intros [[[_ [->| ->]]|Hb]|[[_ [->| ->]]|Hb]]; eauto.
      * apply Hg in Hb as [v Hv]. congruence.
      * apply Hg in Hb as [v Hv]. congruence.
    + rewrite player_at_committed_ne, self_committed by done.
      rewrite !granted_to_committed, A. intros Hq.
      destruct (Ha q Hq) as [[Hx1 Hx2]%Hold [Hy1 Hy2]%Hold].
      intros [[[[?|?] _]|Hb]|[[[?|?] _]|Hb]]; try done; eauto.
Qed.

Lemma access_invariant_reachable s : reachable s → access_invariant s.
Proof.
  induction 1 as [a|c s _ IH];
    [apply access_invariant_deployed|by apply access_invariant_transact].
Qed.

End Grants.

(** ** Properties of the ledger beyond the ones above *)

(** X1. In every reachable state the two handles of an active record are
    granted to the record's owner and to the contract itself. *)
Theorem position_granted_to_owner s p :
  reachable s → active (player_at s p) = true →
  granted_to s (x (player_at s p)) p ∧ granted_to s (y (player_at s p)) p ∧
  granted_to s (x (player_at s p)) (self s) ∧
  granted_to s (y (player_at s p)) (self s).
Proof. intros Hr. by apply (owner_granted s (access_invariant_reachable s Hr)). Qed.

Lemma position_granted_to_owner_witness :
  granted_to alice_moved (x (player_at alice_moved alice)) alice ∧
  granted_to alice_moved (y (player_at alice_moved alice)) alice ∧
  granted_to alice_moved (x (player_at alice_moved alice)) game ∧
  granted_to alice_moved (y (player_at alice_moved alice)) game.
Proof.
  apply (position_granted_to_owner alice_moved alice).
  - unfold alice_moved, alice_joined. do 2 apply reachable_transact.
    apply reachable_deployed.
  - vm_compute. reflexivity.
Defined.




Section Monotone.

Lemma transact_keeps c s :
  extends (fhe s) (fhe (transact c s).2) ∧
  acl (fhe s) ⊆ acl (fhe (transact c s).2) ∧
  self (transact c s).2 = self s.
Proof.
  destruct (transact_commit c s) as [[e ->]|(hx & hy & cp & -> & X & A & _)]; [done|].
  cbn [snd]. split; [exact X|]. split; [|done].
  intros [h a] Hin. apply (granted_to_committed s (sender c) hx hy cp (event_of c) h a).
  right. by rewrite A.
Qed.

Lemma run_keeps cs s :
  extends (fhe s) (fhe (run cs s).2) ∧
  acl (fhe s) ⊆ acl (fhe (run cs s).2) ∧
  self (run cs s).2 = self s.
Proof.
  revert s. induction cs as [|c cs IH]; intros s; [done|].
  rewrite run_cons. cbn [snd].
  destruct (transact_keeps c s) as (X1 & A1 & S1).
  destruct (IH (transact c s).2) as (X2 & A2 & S2).
  split; [by etrans|]. split; [by etrans|]. congruence.
Qed.

End Monotone.

(** X3. Nothing is ever taken back: through any history of transactions a
    ciphertext keeps its plaintext and a grant stays on the access list. *)
Theorem ciphertexts_and_grants_persist cs s h :
  (∀ v, decrypt (fhe s) h = Some v → decrypt (fhe (run cs s).2) h = Some v) ∧
  (∀ a, granted_to s h a → granted_to (run cs s).2 h a).
Proof.
  destruct (run_keeps cs s) as (X & A & _). split.
  - intros v. by apply decrypt_extends.
  - intros a Hg. by apply A.
Qed.

(** X4. The event log of a history: exactly one event per successful
    transaction, in order, naming the call and its sender; a failed
    transaction logs nothing. *)
Theorem events_of_history cs s :
  events (run cs s).2 = events s ++ emitted cs (run cs s).1.
Proof.
  revert s. induction cs as [|c cs IH]; intros s.
  - cbn. by rewrite app_nil_r.
  - rewrite run_cons. cbn [fst snd]. rewrite IH.
    destruct (transact_commit c s) as [[e ->]|(hx & hy & cp & -> & _)]; cbn [fst snd emitted].
    + done.
    + unfold committed at 1. cbn [events]. by rewrite <- app_assoc.
Qed.

(** X5. There is no way back: an identity that has joined stays joined
    through every later history. *)
Theorem joined_forever cs s p :
  active (player_at s p) = true → active (player_at (run cs s).2 p) = true.
Proof. intros H. apply run_active. by left. Qed.

Lemma joined_forever_witness :
  active (player_at
            (run [CallJoinGame alice 1 2; CallMove alice 5%nat 6%nat (encrypted_input bob []);
                  CallJoinGame bob 3 4] alice_joined).2 alice) = true.
Proof. apply joined_forever. vm_compute. reflexivity. Defined.

Lemma other_record_kept c s q :
  sender c ≠ q → player_at (transact c s).2 q = player_at s q.
Proof.
  intros Hne.
  destruct (transact_commit c s) as [[e ->]|(hx & hy & cp & -> & _)]; [done|].
  by apply player_at_committed_ne.
Qed.

(** X6. A transaction of another sender leaves the decrypted position of
    [q] as it was, not only its handles. *)
Theorem others_position_unchanged c s q v :
  sender c ≠ q → position s q = Some v →
  position (transact c s).2 q = Some v.
Proof.
  intros Hne Hp. destruct v as [vx vy]. apply position_inv in Hp as [Px Py].
  destruct (transact_keeps c s) as (X & _ & _).
  pose proof (other_record_kept c s q Hne) as E.
  apply position_Some; rewrite E; by eapply decrypt_extends.
Qed.

Lemma others_position_unchanged_witness :
  position (transact (CallMove bob 0%nat 1%nat (encrypted_input bob [9; 9])) two_players).2
    alice = Some (6, 4).
Proof.
  apply others_position_unchanged; [discriminate|vm_compute; reflexivity].
Defined.

Lemma ciphertexts_and_grants_persist_witness :
  let later :=
    (run [CallJoinGame bob 7 200;
          CallMove bob 0%nat 1%nat (encrypted_input bob [3; 250])] alice_joined).2 in
  decrypt (fhe later) (x (player_at alice_joined alice)) = Some 6 ∧
  granted_to later (x (player_at alice_joined alice)) alice.
Proof.
  intros later.
  destruct (ciphertexts_and_grants_persist
              [CallJoinGame bob 7 200;
               CallMove bob 0%nat 1%nat (encrypted_input bob [3; 250])]
              alice_joined (x (player_at alice_joined alice))) as [Hd Hg].
  split.
  - refine (Hd 6 _). vm_compute. reflexivity.
  - refine (Hg alice _). unfold granted_to.
    refine (@bool_decide_unpack _ (decide _) _). vm_compute. exact I.
Defined.




(** X8. Clamping is idempotent and leaves an in-range coordinate alone: on
    an 8-bit plaintext [v], a second [_clampCoordinate] returns a ciphertext
    of the same plaintext as the first, which is [v] itself when
    [1 <= v <= 10], 1 below and 10 above. *)
Theorem clampCoordinate_idempotent s h v :
  decrypt (fhe s) h = Some v → 0 ≤ v < 256 →
  ∃ h1 s1 h2 s2,
    _clampCoordinate h s = Ok h1 s1 ∧
    _clampCoordinate h1 s1 = Ok h2 s2 ∧
    decrypt (fhe s2) h2 = decrypt (fhe s1) h1 ∧
    decrypt (fhe s1) h1 = Some (if v <? 1 then 1 else if 10 <? v then 10 else v).
Proof.
  intros Hh Hv.
  destruct (clampCoordinate_spec h v s Hh Hv) as (h1 & c1 & E1 & D1 & _).
  assert (Hc : 0 ≤ clamp v < 256) by (unfold clamp; lia).
  destruct (clampCoordinate_spec h1 (clamp v) (with_fhe c1 s) D1 Hc)
    as (h2 & c2 & E2 & D2 & _).
  exists h1, (with_fhe c1 s), h2, (with_fhe c2 (with_fhe c1 s)).
  split; [done|]. split; [done|]. cbn [fhe with_fhe]. rewrite D1, D2. split.
  - f_equal. unfold clamp. lia.
  - f_equal. unfold clamp.
    destruct (Z.ltb_spec v 1); [lia|]. destruct (Z.ltb_spec 10 v); lia.
Qed.

Lemma clampCoordinate_idempotent_witness :
  ∃ h1 s1 h2 s2,
    _clampCoordinate (x (player_at alice_joined alice)) alice_joined = Ok h1 s1 ∧
    _clampCoordinate h1 s1 = Ok h2 s2 ∧
    decrypt (fhe s2) h2 = decrypt (fhe s1) h1 ∧
    decrypt (fhe s1) h1 = Some 6.
Proof.
  apply (clampCoordinate_idempotent alice_joined (x (player_at alice_joined alice)) 6);
    [vm_compute; reflexivity|lia].
Defined.

Section Draws.

Lemma drawn_coordinate_eq s r :
  drawn_coordinate s r = Some (wrap Uint8 r mod 10 + 1).
Proof.
  unfold drawn_coordinate.
  by destruct (randomCoordinate_spec r s) as (h & c & -> & D & _).
Qed.

End Draws.

(** X9. The spawn is not uniform: of the 256 values of the draw, 26 lead to
    each of the coordinates 1 to 6 and 25 to each of 7 to 10, whatever the
    state of the ledger. *)
Theorem random_coordinate_bias s k :
  1 ≤ k ≤ 10 →
  length (filter (λ r, drawn_coordinate s r = Some k) draws)
  = if decide (k ≤ 6) then 26%nat else 25%nat.
Proof.
  intros Hk.
  rewrite (list_filter_iff _ (λ r, wrap Uint8 r mod 10 + 1 = k)); last first.
  { intros r. rewrite drawn_coordinate_eq. split; [by intros [= ->]|by intros ->]. }
  assert (Hcases : k = 1 ∨ k = 2 ∨ k = 3 ∨ k = 4 ∨ k = 5 ∨
                   k = 6 ∨ k = 7 ∨ k = 8 ∨ k = 9 ∨ k = 10) by lia.
  destruct Hcases as [->|[->|[->|[->|[->|[->|[->|[->|[->| ->]]]]]]]]];
    vm_compute; reflexivity.
Qed.

Lemma random_coordinate_bias_witness :
  length (filter (λ r, drawn_coordinate alice_joined r = Some 6) draws) = 26%nat ∧
  length (filter (λ r, drawn_coordinate alice_joined r = Some 7) draws) = 25%nat.
Proof.
  split.
  - apply (random_coordinate_bias alice_joined 6). lia.
  - apply (random_coordinate_bias alice_joined 7). lia.
Defined.

(** * More of the client *)

(** A membership in a short trace that holds no such call. *)
Ltac not_in_trace H :=
  repeat (apply elem_of_cons in H as [H|H]; [discriminate H|]);
  by apply elem_of_nil in H.

Section DecryptFlow.

Import GridGameApp.

Context {Domain Types Message : Type}.

(** X11. The handler calls none of its collaborators exactly when a piece of
    its context is missing (the SDK instance, the address, a handle or the
    signer promise; an empty string counts as missing), and then it reports
    the missing context. *)
Theorem handleDecrypt_missing_context (st : Component Domain Types Message) :
  (instance st = None ∨ truthy (address st) = None ∨
   truthy (contractHandles_x st) = None ∨ truthy (contractHandles_y st) = None ∨
   signerPromise st = None) ↔
  handleDecrypt st = ([], TxError "Missing encryption context for decryption.").
Proof.
  unfold handleDecrypt.
  destruct (instance st) as [inst|]; [|by split; eauto].
  destruct (truthy (address st)) as [addr|]; [|by split; eauto].
  destruct (truthy (contractHandles_x st)) as [hx|]; [|by split; eauto 6].
  destruct (truthy (contractHandles_y st)) as [hy|]; [|by split; eauto 6].
  destruct (signerPromise st) as [promise|]; [|by split; eauto 6].
  change (negb isContractConfigured) with false. cbv iota.
  split; [by intros [?|[?|[?|[?|?]]]]|].
  unfold call, and_then.
  destruct (generateKeypair inst) as [[]|kp]; [done..|].
  destruct (createEIP712 inst _ _ _ _) as [[]|e]; [done..|].
  destruct promise as [[]|[sg|]]; cbn; [done..| |done].
  destruct (signTypedData sg _ _ _) as [[]|sig]; [done..|].
  by destruct (userDecrypt inst _) as [[]|m].
Qed.

(** X12. The relayer is contacted only with a signature: a [userDecrypt]
    call in the trace means that the key pair was generated, the message
    built and signed, and the request carries that key pair, that signature
    (less its first [0x]), the configured contract as only scope, and the
    two handles of the component; it is the last of exactly four calls. *)
Theorem relayer_needs_signature (st : Component Domain Types Message) r :
  CallUserDecrypt r ∈ (handleDecrypt st).1 →
  ∃ inst signer keypair eip712 signature hx hy addr,
    instance st = Some inst ∧
    signerPromise st = Some (inr (Some signer)) ∧
    truthy (address st) = Some addr ∧
    truthy (contractHandles_x st) = Some hx ∧
    truthy (contractHandles_y st) = Some hy ∧
    generateKeypair inst = inr keypair ∧
    createEIP712 inst (publicKey keypair) [CONTRACT_ADDRESS]
      (pretty (now st `div` 1000)) "10" = inr eip712 ∧
    signTypedData signer (domain eip712)
      (types_UserDecryptRequestVerification eip712) (message eip712)
    = inr signature ∧
    r = {| req_handleContractPairs :=
             [ {| handle := hx; contractAddress := CONTRACT_ADDRESS |};
               {| handle := hy; contractAddress := CONTRACT_ADDRESS |} ];
           req_privateKey := privateKey keypair;
           req_publicKey := publicKey keypair;
           req_signature := replace "0x" EmptyString signature;
           req_contractAddresses := [CONTRACT_ADDRESS];
           req_userAddress := addr;
           req_startTimeStamp := pretty (now st `div` 1000);
           req_durationDays := "10" |} ∧
    (handleDecrypt st).1 =
    [ CallGenerateKeypair;
      CallCreateEIP712 (publicKey keypair) [CONTRACT_ADDRESS]
        (pretty (now st `div` 1000)) "10";
      CallSignTypedData (domain eip712)
        (types_UserDecryptRequestVerification eip712) (message eip712);
      CallUserDecrypt r ].
Proof.
  unfold handleDecrypt.
  destruct (instance st) as [inst|]; [|by intros ?%elem_of_nil].
  destruct (truthy (address st)) as [addr|]; [|by intros ?%elem_of_nil].
  destruct (truthy (contractHandles_x st)) as [hx|]; [|by intros ?%elem_of_nil].
  destruct (truthy (contractHandles_y st)) as [hy|]; [|by intros ?%elem_of_nil].
  destruct (signerPromise st) as [promise|]; [|by intros ?%elem_of_nil].
  change (negb isContractConfigured) with false. cbv iota.
  unfold call, and_then.
  destruct (generateKeypair inst) as [[]|kp] eqn:Hk;
    [intros Hin; cbn in Hin; not_in_trace Hin..|].
  destruct (createEIP712 inst _ _ _ _) as [[]|e] eqn:He;
    [intros Hin; cbn in Hin; not_in_trace Hin..|].
  destruct promise as [[]|[sg|]]; cbn;
    [intros Hin; not_in_trace Hin..| |intros Hin; not_in_trace Hin].
  destruct (signTypedData sg _ _ _) as [[]|sig] eqn:Hs;
    [intros Hin; cbn in Hin; not_in_trace Hin..|].
  set (req := {| req_handleContractPairs := _ |}).
  intros Hin.
  assert (Hr : r = req).
  { destruct (userDecrypt inst req) as [[]|m]; cbn in Hin;
      do 3 (apply elem_of_cons in Hin as [Hin|Hin]; [discriminate Hin|]);
      apply list_elem_of_singleton in Hin; by injection Hin. }
  subst r. exists inst, sg, kp, e, sig, hx, hy, addr.
  repeat split; try done.
  by destruct (userDecrypt inst req) as [[]|m].
Qed.

(** X13. A position is displayed only when the relayer answered: the two
    coordinates are what the answer holds for the two handles of the
    component (not a number when a handle is absent from it); any failure
    ends in an error message instead. *)
Theorem displayed_position_from_relayer (st : Component Domain Types Message) px py :
  (handleDecrypt st).2 = DecryptedPosition px py →
  ∃ inst r decrypted hx hy,
    instance st = Some inst ∧
    truthy (contractHandles_x st) = Some hx ∧
    truthy (contractHandles_y st) = Some hy ∧
    last (handleDecrypt st).1 = Some (CallUserDecrypt r) ∧
    userDecrypt inst r = inr decrypted ∧
    px = lookup_plain hx decrypted ∧ py = lookup_plain hy decrypted.
Proof.
  unfold handleDecrypt.
  destruct (instance st) as [inst|]; [|done].
  destruct (truthy (address st)) as [addr|]; [|done].
  destruct (truthy (contractHandles_x st)) as [hx|]; [|done].
  destruct (truthy (contractHandles_y st)) as [hy|]; [|done].
  destruct (signerPromise st) as [promise|]; [|done].
  change (negb isContractConfigured) with false. cbv iota.
  unfold call, and_then.
  destruct (generateKeypair inst) as [[]|kp]; [done..|].
  destruct (createEIP712 inst _ _ _ _) as [[]|e]; [done..|].
  destruct promise as [[]|[sg|]]; cbn; [done..| |done].
  destruct (signTypedData sg _ _ _) as [[]|sig]; [done..|].
  set (req := {| req_handleContractPairs := _ |}).
  destruct (userDecrypt inst req) as [[]|m] eqn:Hu; [done..|].
  cbn. intros [= <- <-]. by exists inst, req, m, hx, hy.
Qed.

End DecryptFlow.

Section DecryptFlowWitnesses.

Import GridGameApp.

Lemma relayer_needs_signature_witness :
  ∃ r, last (handleDecrypt session).1 = Some (CallUserDecrypt r) ∧
       req_signature r = "1b2c3d" ∧ req_privateKey r = "priv" ∧
       req_contractAddresses r = [CONTRACT_ADDRESS].
Proof.
  set (r := {| req_handleContractPairs :=
                 [ {| handle := "0x01"; contractAddress := CONTRACT_ADDRESS |};
                   {| handle := "0x02"; contractAddress := CONTRACT_ADDRESS |} ];
               req_privateKey := "priv";
               req_publicKey := "04pub";
               req_signature := "1b2c3d";
               req_contractAddresses := [CONTRACT_ADDRESS];
               req_userAddress := "0xA11ce";
               req_startTimeStamp := "1760000000";
               req_durationDays := "10" |}).
  assert (Hin : CallUserDecrypt r ∈ (handleDecrypt session).1).
  { apply list_elem_of_lookup. exists 3%nat. vm_compute. reflexivity. }
  destruct (relayer_needs_signature session r Hin)
    as (inst & sg & kp & e & sig & hx & hy & addr & _ & _ & _ & _ & _ & _ & _ & _ & Hr & Ht).
  exists r. rewrite Ht. split; [reflexivity|]. repeat split; reflexivity.
Defined.

Lemma displayed_position_from_relayer_witness :
  ∃ r decrypted,
    last (handleDecrypt session).1 = Some (CallUserDecrypt r) ∧
    userDecrypt session_instance r = inr decrypted ∧
    lookup_plain "0x01" decrypted = Some 7 ∧ lookup_plain "0x02" decrypted = Some 7.
Proof.
  destruct (displayed_position_from_relayer session (Some 7) (Some 7))
    as (inst & r & m & hx & hy & Hi & Hx & Hy & Hl & Hu & Px & Py);
    [vm_compute; reflexivity|].
  injection Hi as <-. injection Hx as <-. injection Hy as <-.
  exists r, m. by rewrite <- Px, <- Py.
Defined.

End DecryptFlowWitnesses.

(** ** The first occurrence of a pattern *)

Section Replace.

Import GridGameApp.

Lemma replace_unfold pat rep s :
  replace pat rep s =
  if starts_with pat s then rep +:+ drop (String.length pat) s
  else match s with
       | EmptyString => EmptyString
       | String a s' => String a (replace pat rep s')
       end.
Proof. by destruct s. Qed.

Lemma drop_0 s : drop 0 s = s.
Proof. by destruct s. Qed.

(** X14. [replace] rewrites the first occurrence of the pattern and nothing
    else: when [pat] occurs in [s] at index [i] and at no smaller index, the
    result is the first [i] characters of [s], then [rep], then [s] from
    index [i + |pat|] on; when [pat] occurs nowhere, the result is [s]. *)
Theorem replace_first_occurrence pat rep s :
  (∀ i, occurs_at pat s i → (∀ j, (j < i)%nat → ¬ occurs_at pat s j) →
        replace pat rep s
        = take_string i s +:+ rep +:+ drop (i + String.length pat) s) ∧
  ((∀ i, ¬ occurs_at pat s i) → replace pat rep s = s).
Proof.
  split.
  - intros i. revert s. induction i as [|i IH]; intros s Hi Hfirst.
    + unfold occurs_at in Hi. rewrite drop_0 in Hi.
      rewrite replace_unfold, Hi. by destruct s.
    + assert (H0 : starts_with pat s = false).
      { specialize (Hfirst O ltac:(lia)). unfold occurs_at in Hfirst.
        rewrite drop_0 in Hfirst. by destruct (starts_with pat s). }
      rewrite replace_unfold, H0. destruct s as [|a s].
      * unfold occurs_at in Hi. cbn [drop] in Hi. congruence.
      * cbn [take_string drop Nat.add].
        change (String a (replace pat rep s) =
                String a (take_string i s +:+ rep +:+ drop (i + String.length pat) s)).
        f_equal. apply IH.
        -- exact Hi.
        -- intros j Hj. apply (Hfirst (S j)). lia.
  - induction s as [|a s IH]; intros Hno.
    + rewrite replace_unfold.
      specialize (Hno O). unfold occurs_at in Hno. cbn [drop] in Hno.
      by destruct (starts_with pat EmptyString).
    + rewrite replace_unfold.
      pose proof (Hno O) as H0. unfold occurs_at in H0. rewrite drop_0 in H0.
      destruct (starts_with pat (String a s)); [done|].
      f_equal. apply IH. intros i. apply (Hno (S i)).
Qed.

Lemma replace_first_occurrence_witness :
  replace "0x" EmptyString "ab0xcd0x" = "abcd0x" ∧
  replace "0x" EmptyString "abcd" = "abcd".
Proof.
  split.
  - apply (proj1 (replace_first_occurrence "0x" EmptyString "ab0xcd0x") 2%nat).
    + reflexivity.
    + intros j Hj Ho. unfold occurs_at in Ho.
      destruct j as [|[|j]]; [discriminate Ho|discriminate Ho|lia].
  - apply (proj2 (replace_first_occurrence "0x" EmptyString "abcd")).
    intros i Ho. unfold occurs_at in Ho.
    destruct i as [|[|[|[|[|i]]]]]; discriminate Ho.
Defined.

End Replace.

(** ** The rendered grid *)

Section Grid.

Import MapGrid.

Lemma rows_NoDup size : NoDup (rows size).
Proof.
  unfold rows. apply NoDup_fmap_2_strong; [|apply NoDup_seq].
  intros i j _ _ H. lia.
Qed.

Lemma elem_of_rows size z : z ∈ rows size ↔ 1 ≤ z ≤ Z.of_nat size.
Proof.
  unfold rows. rewrite list_elem_of_fmap. split.
  - intros (i & -> & Hi%elem_of_seq). lia.
  - intros Hz. exists (Z.to_nat (z - 1)). split; [lia|]. apply elem_of_seq. lia.
Qed.

Lemma filter_concat {A} (P : A → Prop) `{∀ a, Decision (P a)} (ll : list (list A)) :
  filter P (concat ll) = concat (filter P <$> ll).
Proof.
  induction ll as [|l ll IH]; [done|]. cbn. by rewrite filter_app, IH.
Qed.

(** Among distinct keys, only [k] contributes. *)
Lemma concat_only {B} (G : Z → list B) (l : list Z) (k : Z) :
  NoDup l → (∀ z, z ≠ k → G z = []) →
  concat (G <$> l) = if decide (k ∈ l) then G k else [].
Proof.
  intros Hnd HG. induction Hnd as [|z l Hz Hnd IH]; [done|].
  cbn. rewrite IH. destruct (decide (z = k)) as [->|Hne].
  - rewrite (decide_False (P := k ∈ l)) by done.
    rewrite (decide_True (P := k ∈ k :: l)) by left.
    by rewrite app_nil_r.
  - rewrite (HG z Hne). cbn. destruct (decide (k ∈ l)) as [Hin|Hin].
    + rewrite (decide_True (P := k ∈ z :: l)); [done|by right].
    + rewrite (decide_False (P := k ∈ z :: l)); [done|].
      by intros [?|?]%elem_of_cons.
Qed.

Lemma concat_nothing {B} (G : Z → list B) (l : list Z) :
  (∀ z, G z = []) → concat (G <$> l) = [].
Proof. intros HG. induction l as [|z l IH]; [done|]. cbn. by rewrite HG, IH. Qed.

Lemma filter_fmap_nothing {B} (P : B → Prop) `{∀ b, Decision (P b)}
    (g : Z → B) (l : list Z) :
  (∀ z, ¬ P (g z)) → filter P (g <$> l) = [].
Proof.
  intros Hg. induction l as [|z l IH]; [done|].
  rewrite fmap_cons, filter_cons_False; [exact IH|apply Hg].
Qed.

Lemma filter_fmap_only {B} (P : B → Prop) `{∀ b, Decision (P b)}
    (g : Z → B) (l : list Z) (k : Z) :
  NoDup l → (∀ z, z ≠ k → ¬ P (g z)) → P (g k) →
  filter P (g <$> l) = if decide (k ∈ l) then [g k] else [].
Proof.
  intros Hnd Hg Hk. induction Hnd as [|z l Hz Hnd IH]; [done|].
  rewrite fmap_cons. destruct (decide (z = k)) as [->|Hne].
  - rewrite filter_cons_True by done. rewrite IH.
    rewrite (decide_False (P := k ∈ l)) by done.
    by rewrite (decide_True (P := k ∈ k :: l)) by left.
  - rewrite filter_cons_False by by apply Hg. rewrite IH.
    destruct (decide (k ∈ l)) as [Hin|Hin].
    + rewrite (decide_True (P := k ∈ z :: l)); [done|by right].
    + rewrite (decide_False (P := k ∈ z :: l)); [done|].
      by intros [?|?]%elem_of_cons.
Qed.

(** X15. The grid marks the cell of the highlighted position and no other:
    exactly one cell, labelled with the position, when both coordinates are
    between 1 and [size]; none when the position is off the grid, is not a
    number, or is absent. *)
Theorem one_cell_marked size (highlight : Highlight) :
  marked (MapGrid size highlight) =
  match highlight with
  | Some (Some hx, Some hy) =>
      if decide (1 ≤ hx ≤ Z.of_nat size ∧ 1 ≤ hy ≤ Z.of_nat size)
      then [ {| cell_column := hx; cell_row := hy; cell_active := true |} ]
      else []
  | _ => []
  end.
Proof.
  unfold marked, MapGrid. rewrite filter_concat, <- list_fmap_compose.
  assert (Hnone : ∀ h, (∀ row column, isActive h row column = false) →
            concat
              ((filter (λ c, cell_active c = true) ∘
                (λ row, (λ column,
                   {| cell_column := column; cell_row := row;
                      cell_active := isActive h row column |}) <$> rows size))
               <$> rows size) = []).
  { intros h Hh. apply concat_nothing. intros row. unfold compose.
    apply filter_fmap_nothing. intros column. cbn. by rewrite Hh. }
  destruct highlight as [[[hx|] [hy|]]|]; try (by apply Hnone).
  rewrite (concat_only _ (rows size) hy (rows_NoDup size)).
  - unfold compose.
    rewrite (filter_fmap_only _ _ (rows size) hx (rows_NoDup size)).
    + cbn [isActive]. rewrite !Z.eqb_refl. cbn [andb].
      destruct (decide (hy ∈ rows size)) as [Hy|Hy];
        destruct (decide (hx ∈ rows size)) as [Hx|Hx];
        rewrite elem_of_rows in Hx, Hy.
      * by rewrite decide_True.
      * rewrite decide_False; [done|]. tauto.
      * rewrite decide_False; [done|]. tauto.
      * rewrite decide_False; [done|]. tauto.
    + intros z Hz. cbn. rewrite (proj2 (Z.eqb_neq hx z)) by done. done.
    + cbn. by rewrite !Z.eqb_refl.
  - intros z Hz. unfold compose. apply filter_fmap_nothing.
    intros column. cbn. rewrite (proj2 (Z.eqb_neq hy z)) by done.
    by rewrite andb_false_r.
Qed.

End Grid.

Lemma grid_invariant_reachable s : reachable s → grid_invariant s.
Proof.
  induction 1 as [a|c s _ IH];
    [apply grid_invariant_deployed|by apply grid_invariant_transact].
Qed.

(** X16. The ledger and the client agree on the grid: the decrypted position
    of an active identity, in any reachable state, marks exactly one cell of
    the grid of size 10 the application renders, the one labelled with that
    position. *)
Theorem stored_position_is_a_cell s p vx vy :
  reachable s → active (player_at s p) = true →
  position s p = Some (vx, vy) →
  MapGrid.marked (MapGrid.MapGrid 10 (Some (Some vx, Some vy))) =
  [ {| MapGrid.cell_column := vx; MapGrid.cell_row := vy;
       MapGrid.cell_active := true |} ].
Proof.
  intros Hr Hact Hp.
  destruct (grid_invariant_reachable s Hr p Hact) as (wx & wy & Hw & Gx & Gy).
  rewrite Hp in Hw. injection Hw as <- <-.
  unfold on_grid in *.
  assert (Hx : vx = 1 ∨ vx = 2 ∨ vx = 3 ∨ vx = 4 ∨ vx = 5 ∨
               vx = 6 ∨ vx = 7 ∨ vx = 8 ∨ vx = 9 ∨ vx = 10) by lia.
  assert (Hy : vy = 1 ∨ vy = 2 ∨ vy = 3 ∨ vy = 4 ∨ vy = 5 ∨
               vy = 6 ∨ vy = 7 ∨ vy = 8 ∨ vy = 9 ∨ vy = 10) by lia.
  clear - Hx Hy.
  destruct Hx as [->|[->|[->|[->|[->|[->|[->|[->|[->| ->]]]]]]]]];
    destruct Hy as [->|[->|[->|[->|[->|[->|[->|[->|[->| ->]]]]]]]]];
    vm_compute; reflexivity.
Qed.

Lemma stored_position_is_a_cell_witness :
  MapGrid.marked (MapGrid.MapGrid 10 (Some (Some 1, Some 10))) =
  [ {| MapGrid.cell_column := 1; MapGrid.cell_row := 10;
       MapGrid.cell_active := true |} ].
Proof.
  apply (stored_position_is_a_cell alice_moved alice 1 10).
  - unfold alice_moved, alice_joined. do 2 apply reachable_transact.
    apply reachable_deployed.
  - vm_compute. reflexivity.
  - vm_compute. reflexivity.
Defined.

(** ** The handlers *)

Section Handlers.

Import GridGameApp Handlers.

(** X17. The join handler never leaves the component busy, and reports an
    error exactly when something failed: after a run the joining flag is
    down if it was down before, the status message is empty whenever the
    wallet and the signer promise were there, and no error is shown exactly
    when the wallet was connected, the signer came, and the transaction, its
    confirmation and both refetches went through. *)
Theorem handleJoin_settles (w : JoinWorld) (v : View) :
  let v' := view_after (handleJoin w) v in
  (isJoining v = false → isJoining v' = false) ∧
  (is_Some (truthy (jw_address w)) → is_Some (jw_signerPromise w) →
   statusMessage v' = EmptyString) ∧
  (txError v' = None ↔ join_confirmed w).
Proof.
  unfold join_confirmed, handleJoin.
  change (negb isContractConfigured) with false. cbv iota.
  destruct w as [addr promise jg wt rj rp]. cbn [jw_address jw_signerPromise
    jw_joinGame jw_wait jw_refetchJoined jw_refetchPosition].
  destruct (truthy addr) as [a|] eqn:Ha.
  2:{ cbn. split; [done|]. split; [by intros [? [=]]|].
      split; [done|]. by intros [[? [=]] _]. }
  destruct promise as [promise|].
  2:{ cbn. split; [done|]. split; [by intros _ [? [=]]|].
      split; [done|]. by intros (_ & [=] & _). }
  destruct promise as [[m|]|[|]];
    [cbn; (split; [done|]); (split; [done|]);
     (split; [done|]); by intros (_ & [=] & _)..| |
     cbn; (split; [done|]); (split; [done|]);
     (split; [done|]); by intros (_ & [=] & _)].
  destruct jg as [[m|]|[]];
    [cbn; (split; [done|]); (split; [done|]);
     (split; [done|]); by intros (_ & _ & [=] & _)..|].
  destruct wt as [[m|]|[]];
    [cbn; (split; [done|]); (split; [done|]);
     (split; [done|]); by intros (_ & _ & _ & [=] & _)..|].
  destruct rj as [[m|]|[]];
    [cbn; (split; [done|]); (split; [done|]);
     (split; [done|]); by intros (_ & _ & _ & _ & [=] & _)..|].
  destruct rp as [[m|]|[]];
    [cbn; (split; [done|]); (split; [done|]);
     (split; [done|]); by intros (_ & _ & _ & _ & _ & [=])..|].
  cbn. split; [done|]. split; [done|]. split; [|done]. intros _. eauto 10.
Qed.

(** X18. What reaches the contract is the encryption of the selected pair:
    a [move] call in the trace of the move handler carries the first two
    handles and the proof of one SDK encryption, made for the configured
    contract and the connected address, of the form's two integers in the
    order x, y; and the component knew the player as joined. *)
Theorem handleMove_submits_selected (w : MoveWorld) hx hy pf :
  ContractMove hx hy pf ∈ handleMove w →
  ∃ address bx by_ enc,
    truthy (mw_address w) = Some address ∧ mw_joined w = true ∧
    mw_selectedX w = Some bx ∧ mw_selectedY w = Some by_ ∧
    mw_encrypt w CONTRACT_ADDRESS address [bx; by_] = inr enc ∧
    hx = handles enc !! 0%nat ∧ hy = handles enc !! 1%nat ∧
    pf = inputProof enc.
Proof.
  unfold handleMove.
  change (negb isContractConfigured) with false. cbv iota.
  destruct (truthy (mw_address w)) as [a|] eqn:Ha;
    [|intros Hin; not_in_trace Hin].
  destruct (mw_joined w); cbn [negb]; [|intros Hin; not_in_trace Hin].
  destruct (mw_instance w); cbn [negb]; [|intros Hin; not_in_trace Hin].
  destruct (mw_signerPromise w) as [promise|]; [|intros Hin; not_in_trace Hin].
  unfold caught, tell, ask, and_then, BigInt, pure, throw.
  destruct (mw_createEncryptedInput w CONTRACT_ADDRESS a) as [[m|]|[]];
    [intros Hin; cbn in Hin; not_in_trace Hin..|].
  destruct (mw_selectedX w) as [bx|]; [|intros Hin; cbn in Hin; not_in_trace Hin].
  destruct (mw_add8 w bx) as [[m|]|[]];
    [intros Hin; cbn in Hin; not_in_trace Hin..|].
  destruct (mw_selectedY w) as [by_|]; [|intros Hin; cbn in Hin; not_in_trace Hin].
  destruct (mw_add8 w by_) as [[m|]|[]];
    [intros Hin; cbn in Hin; not_in_trace Hin..|].
  destruct (mw_encrypt w CONTRACT_ADDRESS a [bx; by_]) as [[m|]|enc] eqn:He;
    [intros Hin; cbn in Hin; not_in_trace Hin..|].
  destruct promise as [[m|]|[|]];
    [intros Hin; cbn in Hin; not_in_trace Hin..| |
     intros Hin; cbn in Hin; not_in_trace Hin].
  intros Hin. exists a, bx, by_, enc.
  assert (H : ContractMove hx hy pf =
              ContractMove (handles enc !! 0%nat) (handles enc !! 1%nat) (inputProof enc)).
  { destruct (mw_move w _ _ _) as [[m|]|[]];
      [cbn in Hin;
       do 9 (apply elem_of_cons in Hin as [Hin|Hin]; [discriminate Hin|]);
       apply elem_of_cons in Hin as [Hin|Hin]; [exact Hin|not_in_trace Hin]..|].
    destruct (mw_wait w) as [[m|]|[]];
      [cbn in Hin;
       do 9 (apply elem_of_cons in Hin as [Hin|Hin]; [discriminate Hin|]);
       apply elem_of_cons in Hin as [Hin|Hin]; [exact Hin|not_in_trace Hin]..|].
    destruct (mw_refetchPosition w) as [[m|]|[]]; cbn in Hin;
      do 9 (apply elem_of_cons in Hin as [Hin|Hin]; [discriminate Hin|]);
      (apply elem_of_cons in Hin as [Hin|Hin]; [exact Hin|not_in_trace Hin]). }
  injection H as -> -> ->. done.
Qed.

(** A run of the move handler that stopped before the confirmation. *)
Ltac move_stopped :=
  cbn;
  split; [done|];
  split; [intros Hm; exfalso; destruct Hm as (?&?&?&?&?&?&?&?&?&?&?&?&?&?&?&?);
          simplify_eq; congruence|];
  split; [done|];
  split; [done|];
  intros [Hm _]; exfalso; destruct Hm as (?&?&?&?&?&?&?&?&?&?&?&?&?&?&?&?);
  simplify_eq; congruence.

(** X19. The move handler never leaves the component busy, and it drops the
    decrypted position it holds exactly when the move is confirmed: after a
    run the moving flag is down if it was down before; the held position is
    cleared when the transaction was confirmed (whether or not the refetch
    that follows succeeds) and untouched otherwise; and no error is shown
    exactly when the move was confirmed and the refetch went through. *)
Theorem handleMove_settles (w : MoveWorld) (v : View) :
  let v' := view_after (handleMove w) v in
  (isMoving v = false → isMoving v' = false) ∧
  (move_mined w → decryptedPosition v' = None) ∧
  (¬ move_mined w → decryptedPosition v' = decryptedPosition v) ∧
  (txError v' = None → move_mined w ∧ mw_refetchPosition w = inr tt) ∧
  (move_mined w ∧ mw_refetchPosition w = inr tt → txError v' = None).
Proof.
  unfold handleMove, move_mined.
  change (negb isContractConfigured) with false. cbv iota.
  destruct (truthy (mw_address w)) as [a|] eqn:Ha; [|move_stopped].
  destruct (mw_joined w) eqn:Hj; cbn [negb]; [|move_stopped].
  destruct (mw_instance w) eqn:Hi; cbn [negb]; [|move_stopped].
  destruct (mw_signerPromise w) as [promise|] eqn:Hp; [|move_stopped].
  unfold caught, tell, ask, and_then, BigInt, pure, throw.
  destruct (mw_createEncryptedInput w CONTRACT_ADDRESS a) as [[m|]|[]] eqn:Hc;
    [move_stopped..|].
  destruct (mw_selectedX w) as [bx|] eqn:Hx; [|move_stopped].
  destruct (mw_add8 w bx) as [[m|]|[]] eqn:Hax; [move_stopped..|].
  destruct (mw_selectedY w) as [by_|] eqn:Hy; [|move_stopped].
  destruct (mw_add8 w by_) as [[m|]|[]] eqn:Hay; [move_stopped..|].
  destruct (mw_encrypt w CONTRACT_ADDRESS a [bx; by_]) as [[m|]|enc] eqn:He;
    [move_stopped..|].
  destruct promise as [[m|]|[|]]; [move_stopped..| |move_stopped].
  destruct (mw_move w _ _ _) as [[m|]|[]] eqn:Hmv; [move_stopped..|].
  destruct (mw_wait w) as [[m|]|[]] eqn:Hw; [move_stopped..|].
  destruct (mw_refetchPosition w) as [[m|]|[]] eqn:Hr; cbn;
    (split; [done|]); (split; [done|]);
    (split; [intros Hn; exfalso; apply Hn; exists a, bx, by_, enc; by repeat split|]).
  - split; [done|]. by intros [_ [=]].
  - split; [done|]. by intros [_ [=]].
  - split; [|done]. intros _. split; [|done].
    exists a, bx, by_, enc. by repeat split.
Qed.

Lemma handleJoin_settles_witness :
  let v' := view_after (handleJoin join_world) resting_view in
  isJoining v' = false ∧ statusMessage v' = EmptyString ∧ txError v' = None.
Proof.
  destruct (handleJoin_settles join_world resting_view) as (H1 & H2 & H3).
  cbv zeta. split; [by apply H1|]. split; [apply H2; by eexists|].
  apply H3. unfold join_confirmed. by repeat split; try eexists.
Defined.

Lemma handleMove_submits_selected_witness :
  ∃ enc, mw_encrypt move_world CONTRACT_ADDRESS "0xA11ce" [7; 8] = inr enc ∧
         Some "h7" = handles enc !! 0%nat ∧ Some "h8" = handles enc !! 1%nat.
Proof.
  destruct (handleMove_submits_selected move_world (Some "h7") (Some "h8") "proof")
    as (a & bx & by_ & enc & Ha & _ & Hx & Hy & He & H0 & H1 & _).
  - apply list_elem_of_lookup. exists 9%nat. vm_compute. reflexivity.
  - injection Ha as <-. injection Hx as <-. injection Hy as <-. by exists enc.
Defined.

Lemma handleMove_settles_witness :
  let v' := view_after (handleMove move_world) resting_view in
  isMoving v' = false ∧ decryptedPosition v' = None ∧
  txError v' = Some "network down".
Proof.
  destruct (handleMove_settles move_world resting_view) as (H1 & H2 & _).
  cbv zeta. split; [by apply H1|]. split; [|vm_compute; reflexivity].
  apply H2. unfold move_mined.
  exists "0xA11ce", 7, 8, {| handles := ["h7"; "h8"]; inputProof := "proof" |}.
  by repeat split.
Defined.

End Handlers.

(** ** The decryption task *)



(** ** Records that were never written *)

(** X21. An identity that has not joined has no record at all: in every
    reachable state its mapping slot was never written, so it reads as the
    zero record, with the uninitialised handle on both axes, which names no
    ciphertext. *)
Theorem unjoined_record_absent s p :
  reachable s → active (player_at s p) = false →
  _players s !! p = None ∧ player_at s p = zero_position ∧
  decrypt (fhe s) (x (player_at s p)) = None ∧
  decrypt (fhe s) (y (player_at s p)) = None.
Proof.
  intros Hr Hact.
  assert (Hnone : _players s !! p = None).
  { revert Hact. induction Hr as [a|c s _ IH]; [intros _; apply lookup_empty|].
    destruct (transact_commit c s) as [[e ->]|(hx & hy & cp & -> & _)]; [exact IH|].
    cbn [snd]. destruct (decide (sender c = p)) as [<-|Hne].
    - by rewrite player_at_committed_eq.
    - rewrite player_at_committed_ne by done. intros Hq.
      unfold committed. cbn [_players]. rewrite lookup_insert_ne by done. by apply IH. }
  split; [done|]. unfold player_at. by rewrite Hnone.
Qed.

Lemma unjoined_record_absent_witness :
  _players alice_moved !! bob = None ∧ player_at alice_moved bob = zero_position ∧
  decrypt (fhe alice_moved) (x (player_at alice_moved bob)) = None ∧
  decrypt (fhe alice_moved) (y (player_at alice_moved bob)) = None.
Proof.
  apply unjoined_record_absent.
  - unfold alice_moved, alice_joined. do 2 apply reachable_transact.
    apply reachable_deployed.
  - vm_compute. reflexivity.
Defined.
